(** * stuttgart-streets: the prefix explorer of [main.py]

    A shallow embedding of the class [StuttgartStreetFetcher] and of [main],
    and the properties of the crawl that follow from the code. *)

From Stdlib Require Import ZArith NArith Ascii String.
From stdpp Require Import base decidable option list sorting gmap fin_maps.

Local Open Scope N_scope.

(** ** Python strings

    A Python [str] is a sequence of Unicode code points; one-character
    strings (what iterating a [str] yields) are code points. *)

Definition str := list N.

(** String literals of the source are written as Rocq literals, which hold
    the UTF-8 bytes of the text, and decoded to code points. *)
Fixpoint utf8_decode (bs : list N) : str :=
  match bs with
  | [] => []
  | b0 :: r0 =>
      if b0 <? 128 then b0 :: utf8_decode r0
      else match r0 with
      | [] => [b0]
      | b1 :: r1 =>
          if b0 <? 224 then ((b0 - 192) * 64 + (b1 - 128)) :: utf8_decode r1
          else match r1 with
          | [] => [b0; b1]
          | b2 :: r2 =>
              if b0 <? 240
              then ((b0 - 224) * 4096 + (b1 - 128) * 64 + (b2 - 128))
                     :: utf8_decode r2
              else match r2 with
              | [] => [b0; b1; b2]
              | b3 :: r3 =>
                  ((b0 - 240) * 262144 + (b1 - 128) * 4096
                   + (b2 - 128) * 64 + (b3 - 128)) :: utf8_decode r3
              end
          end
      end
  end.

Definition utf8 (s : string) : str :=
  utf8_decode (map N_of_ascii (list_ascii_of_string s)).

(** Python compares strings code point by code point. *)
Fixpoint str_lt (a b : str) : bool :=
  match a, b with
  | _, [] => false
  | [], _ :: _ => true
  | x :: a', y :: b' =>
      if x <? y then true else if y <? x then false else str_lt a' b'
  end.

(** Tuples [(int, str)] compare lexicographically. *)
Definition key_lt (k1 k2 : Z * str) : bool :=
  if (k1.1 <? k2.1)%Z then true
  else if (k2.1 <? k1.1)%Z then false
  else str_lt k1.2 k2.2.

(** ** [sorted]

    Python's [sorted] is a stable sort that only asks [<] of its elements
    (of the keys, when a key function is given, each computed once before
    sorting starts).  Stable insertion from the right is such a sort. *)

Fixpoint insert_sorted {A} (lt : A → A → bool) (x : A) (l : list A) : list A :=
  match l with
  | [] => [x]
  | y :: r => if lt y x then y :: insert_sorted lt x r else x :: y :: r
  end.

Definition sorted {A} (lt : A → A → bool) (l : list A) : list A :=
  foldr (insert_sorted lt) [] l.

Definition sorted_with_keys {A K} (lt : K → K → bool) (keys : list K)
    (l : list A) : list A :=
  (sorted (λ a b, lt a.1 b.1) (zip keys l)).*2.

(** ** Requests, responses, console lines, files *)

(** The two calls of [self.client.get]: the street endpoint with
    [params={"street": prefix}] and the number endpoint with
    [{"street": street}] plus ["streetnr"] when the prefix is not empty. *)
Inductive request :=
  | GetStreets (street : str)
  | GetNumbers (street : str) (streetnr : option str).

Global Instance request_eq_dec : EqDecision request.
Proof. solve_decision. Defined.

(** A decoded response document, as far as the fetch functions look at it.
    A suggestion is a dict, of which only the ["data"] member is read, or
    something else; the ["data"] members are strings, as the declared
    result type [List[str]] says. *)
Inductive item :=
  | Entry (data : option str)   (* a dict, with its "data" member if any *)
  | NoEntry.                    (* anything that is not a dict *)

Inductive suggestions :=
  | Items (items : list item)   (* what iterating the value yields *)
  | NotIterable.                (* None, a bool, a number: [for] raises *)

Inductive document :=
  | Dict (member : option suggestions) (* a dict, with "suggestions" if any *)
  | NotDict.

(** What one [client.get] / [raise_for_status] / [json] sequence does. *)
Inductive response :=
  | GetRaises        (* transport failure in [client.get] *)
  | StatusRaises     (* [raise_for_status] raises on a 4xx/5xx status *)
  | JsonRaises       (* [response.json()] cannot decode the body *)
  | Json (data : document).

(** The lines written by [print], one constructor per format string. *)
Inductive line :=
  | ErrorFetchingStreets (prefix : str)
  | ErrorFetchingNumbers (street number_prefix : str)
  | ExploringNumbers (street number_prefix : str)
  | AlreadyProcessed (street : str)
  | ExploringPrefix (prefix : str)
  | LoadedStreetNames (n : nat)
  | LoadedCompletedQueries (n : nat)
  | LoadedHouseNumbers (n : nat)
  | FoundStreetNames (n : nat)
  | CompletedBranches (n : nat)
  | FoundHouseNumbers (n : nat)
  | TotalHouseNumbers (n : nat)
  | CollectingStreetNames
  | StartingLetter (letter : N)
  | CurrentTotal (streets queries : nat)
  | StreetCollectionComplete
  | TotalStreetsFound (n : nat)
  | CollectingHouseNumbers
  | ProcessingStreets (n : nat)
  | ProcessingStreet (i n : nat) (street : str)
  | ProgressSaved (i n : nat)
  | FinalResults
  | TotalUniqueStreets (n : nat)
  | StreetsWithHouseNumbers (n : nat).

(** The three JSON files in the working directory, [None] when absent. *)
Record files := {
  street_names_json : option (list str);
  completed_queries_json : option (list str);
  street_numbers_json : option (gmap str (list str));
}.

(** ** The fetcher

    The attributes of [StuttgartStreetFetcher], and what the object does to
    the world: the requests sent through [self.client] (oldest first), the
    lines printed, the files. *)
Record fetcher := {
  street_names : gset str;
  completed_queries : gset str;
  street_numbers : gmap str (list str);
  completed_number_queries : gset str;
  requests : list request;
  stdout : list line;
  disk : files;
}.

(** [__init__], in a directory holding the files [d]. *)
Definition init (d : files) : fetcher :=
  {| street_names := ∅; completed_queries := ∅; street_numbers := ∅;
     completed_number_queries := ∅; requests := []; stdout := []; disk := d |}.

Definition no_files : files :=
  {| street_names_json := None; completed_queries_json := None;
     street_numbers_json := None |}.

(** ** Running a method

    A method either returns, or an exception leaves it: the [KeyError] of a
    dict subscript, or the end of the recursion budget [fuel] that bounds
    the depth of the two recursive explorers.  Attribute updates are in
    place, so the fetcher is there in both cases. *)
Inductive halt := OutOfFuel | KeyError.

Inductive outcome (A : Type) :=
  | Done (a : A) (s : fetcher)
  | Halt (h : halt) (s : fetcher).
Arguments Done {A} a s.
Arguments Halt {A} h s.

Definition M (A : Type) : Type := fetcher → outcome A.

Definition state_of {A} (o : outcome A) : fetcher :=
  match o with Done _ s => s | Halt _ s => s end.

Definition returned {A} (o : outcome A) : bool :=
  match o with Done _ _ => true | Halt _ _ => false end.

Global Instance M_ret : MRet M := λ A a s, Done a s.
Global Instance M_bind : MBind M := λ A B f m s,
  match m s with
  | Done a s' => f a s'
  | Halt h s' => Halt h s'
  end.

Definition raise {A} (h : halt) : M A := λ s, Halt h s.
Definition modify (f : fetcher → fetcher) : M unit := λ s, Done () (f s).
Definition get {A} (f : fetcher → A) : M A := λ s, Done (f s) s.

(** [for x in l: body x] *)
Fixpoint for_each {A} (l : list A) (body : A → M unit) : M unit :=
  match l with
  | [] => mret ()
  | x :: r => body x ;; for_each r body
  end.

(** Attribute updates, as functions on the fetcher and as statements. *)
Definition printed (ln : line) (s : fetcher) : fetcher :=
  {| street_names := street_names s; completed_queries := completed_queries s;
     street_numbers := street_numbers s;
     completed_number_queries := completed_number_queries s;
     requests := requests s; stdout := stdout s ++ [ln]; disk := disk s |}.

Definition sent (r : request) (s : fetcher) : fetcher :=
  {| street_names := street_names s; completed_queries := completed_queries s;
     street_numbers := street_numbers s;
     completed_number_queries := completed_number_queries s;
     requests := requests s ++ [r]; stdout := stdout s; disk := disk s |}.

Definition with_street_names (X : gset str) (s : fetcher) : fetcher :=
  {| street_names := X; completed_queries := completed_queries s;
     street_numbers := street_numbers s;
     completed_number_queries := completed_number_queries s;
     requests := requests s; stdout := stdout s; disk := disk s |}.

Definition with_completed_queries (X : gset str) (s : fetcher) : fetcher :=
  {| street_names := street_names s; completed_queries := X;
     street_numbers := street_numbers s;
     completed_number_queries := completed_number_queries s;
     requests := requests s; stdout := stdout s; disk := disk s |}.

Definition with_street_numbers (m : gmap str (list str)) (s : fetcher)
    : fetcher :=
  {| street_names := street_names s; completed_queries := completed_queries s;
     street_numbers := m;
     completed_number_queries := completed_number_queries s;
     requests := requests s; stdout := stdout s; disk := disk s |}.

Definition with_completed_number_queries (X : gset str) (s : fetcher)
    : fetcher :=
  {| street_names := street_names s; completed_queries := completed_queries s;
     street_numbers := street_numbers s;
     completed_number_queries := X;
     requests := requests s; stdout := stdout s; disk := disk s |}.

Definition with_disk (d : files) (s : fetcher) : fetcher :=
  {| street_names := street_names s; completed_queries := completed_queries s;
     street_numbers := street_numbers s;
     completed_number_queries := completed_number_queries s;
     requests := requests s; stdout := stdout s; disk := d |}.

Definition print (ln : line) : M unit := modify (printed ln).
Definition send (r : request) : M unit := modify (sent r).
Definition set_street_names (X : gset str) : M unit :=
  modify (with_street_names X).
Definition set_completed_queries (X : gset str) : M unit :=
  modify (with_completed_queries X).
Definition set_street_numbers (m : gmap str (list str)) : M unit :=
  modify (with_street_numbers m).
Definition set_completed_number_queries (X : gset str) : M unit :=
  modify (with_completed_number_queries X).
Definition write_files (d : files) : M unit := modify (with_disk d).

(** ** Unicode and the server

    Python takes character classes and case mappings from the Unicode
    database and the answers from the network.  They are parameters of the
    model; what the code relies on for ASCII text is stated as hypotheses
    where a proof needs it. *)

(** How [str.isdigit] and [int] see a character: no digit; a decimal digit
    with its value (accepted by both); a digit that is not decimal, such as
    a superscript ([isdigit] holds, [int] raises [ValueError]). *)
Inductive digit_class := NotDigit | DecimalDigit (v : Z) | OtherDigit.

(** Case and digits of the ASCII range. *)
Definition ascii_lower (lower : N → str) : Prop :=
  ∀ c, c < 128 → lower c = [if (65 <=? c) && (c <=? 90) then c + 32 else c].

Definition ascii_digits (char_class : N → digit_class) : Prop :=
  ∀ c, c < 128 →
    char_class c = if (48 <=? c) && (c <=? 57)
                   then DecimalDigit (Z.of_N (c - 48)) else NotDigit.

(** ** Instances

    A case table and a digit table that agree with Unicode on Latin-1 and a
    few more characters, and servers, to run the model on. *)

Definition latin_lower (c : N) : str :=
  if (65 <=? c) && (c <=? 90) then [c + 32]
  else if (192 <=? c) && (c <=? 222) && negb (c =? 215) then [c + 32]
  else if c =? 304 then [105; 775]       (* capital I with dot above *)
  else if c =? 8490 then [107]           (* the Kelvin sign lowers to k *)
  else [c].

Definition latin_digits (c : N) : digit_class :=
  if (48 <=? c) && (c <=? 57) then DecimalDigit (Z.of_N (c - 48))
  else if (c =? 178) || (c =? 179) || (c =? 185) then OtherDigit (* ² ³ ¹ *)
  else if (1632 <=? c) && (c <=? 1641) then DecimalDigit (Z.of_N (c - 1632))
  else NotDigit.

(** A server that finds nothing, and one whose connection is down. *)
Definition empty_server : list request → request → response :=
  λ _ _, Json (Dict (Some (Items []))).

Definition dead_server : list request → request → response :=
  λ _ _, GetRaises.

(** [n] suggestions [base0], [base1], ... *)
Definition numbered (base : str) (n : nat) : document :=
  Dict (Some (Items ((λ i, Entry (Some (base ++ [48 + N.of_nat i])))
                       <$> seq 0 n))).

(** Twelve streets for the prefix "Ab", nothing below it. *)
Definition ab_server : list request → request → response :=
  λ _ r, if decide (r = GetStreets (utf8 "Ab"))
         then Json (numbered (utf8 "Abweg") 12)
         else Json (Dict (Some (Items []))).

(** Twelve numbers for the prefix "1" of any street, one for "10". *)
Definition ten_server : list request → request → response :=
  λ _ r, match r with
         | GetNumbers street (Some [49]) => Json (numbered (utf8 "1") 12)
         | GetNumbers street (Some [49; 48]) =>
             Json (Dict (Some (Items [Entry (Some (utf8 "10"))])))
         | _ => Json (Dict (Some (Items [])))
         end.

(** One street for the prefix "A". *)
Definition a_server : list request → request → response :=
  λ _ r, if decide (r = GetStreets (utf8 "A"))
         then Json (Dict (Some (Items [Entry (Some (utf8 "Ahornweg"))])))
         else Json (Dict (Some (Items []))).

(** Twelve suggestions for every request. *)
Definition full_server : list request → request → response :=
  λ _ _, Json (numbered (utf8 "Weg") 12).

(** The numeric value of the digit characters of an ASCII token, in the
    words of the specification: the digits read as one decimal number, 0
    when there is none. *)
Definition digits_value (x : str) : Z :=
  foldl (λ a c, if (48 <=? c) && (c <=? 57)
                then (10 * a + Z.of_N (c - 48))%Z else a) 0%Z x.

Section Fetcher.

(** The answer to a request, given the requests sent before it. *)
Variable server : list request → request → response.
(** [c.lower()] for a one-character string [c]. *)
Variable lower : N → str.
Variable char_class : N → digit_class.

(** The extraction loop of both fetch functions; [None] when it raises. *)
Definition extract (data : document) : option (list str) :=
  match data with
  | Dict (Some (Items items)) =>
      Some (items ≫= λ it,
              match it with Entry (Some d) => [d] | _ => [] end)
  | Dict (Some NotIterable) => None
  | Dict None | NotDict => Some []
  end.

Definition fetch_streets (prefix : str) : M (list str) :=
  history ← get requests;
  send (GetStreets prefix);;
  match server history (GetStreets prefix) with
  | Json data =>
      match extract data with
      | Some street_names => mret street_names
      | None => print (ErrorFetchingStreets prefix);; mret []
      end
  | _ => print (ErrorFetchingStreets prefix);; mret []
  end.

Definition number_params (street number_prefix : str) : request :=
  GetNumbers street
    (match number_prefix with [] => None | _ => Some number_prefix end).

Definition fetch_house_numbers (street number_prefix : str) : M (list str) :=
  history ← get requests;
  send (number_params street number_prefix);;
  match server history (number_params street number_prefix) with
  | Json data =>
      match extract data with
      | Some house_numbers => mret house_numbers
      | None => print (ErrorFetchingNumbers street number_prefix);; mret []
      end
  | _ => print (ErrorFetchingNumbers street number_prefix);; mret []
  end.

Definition german_chars : str := utf8 "abcdefghijklmnopqrstuvwxyzäöüß".

(** The dict literal [impossible_after], in source order. *)
Definition impossible_after : list (str * list N) :=
  [ (utf8 "b", utf8 "bcdfgjkpqvwxz");
    (utf8 "c", utf8 "bcdfgjpqvwxyz");
    (utf8 "d", utf8 "bcdfgjkpqvwxz");
    (utf8 "f", utf8 "bcdgjkpqvwxz");
    (utf8 "g", utf8 "bcdfjkpqvwxz");
    (utf8 "k", utf8 "bcdfgjkpqvwxz");
    (utf8 "p", utf8 "bcdgjkpqvwxz");
    (utf8 "t", utf8 "bcdfgjkpqvwx");
    (utf8 "x", utf8 "abcdefghijklmnopqrstuvwxyzäöüß");
    (utf8 "q", filter (λ c, c ≠ 117) german_chars) ].

Fixpoint dict_get {V} (k : str) (d : list (str * V)) : option V :=
  match d with
  | [] => None
  | (k', v) :: r => if decide (k' = k) then Some v else dict_get k r
  end.

Definition get_next_characters (prefix : str) : list N :=
  match last prefix with
  | Some c =>
      let last_char := lower c in
      match dict_get last_char impossible_after with
      | Some excluded => filter (λ c, c ∉ excluded) german_chars
      | None => german_chars
      end
  | None => german_chars
  end.

Definition query_key (street number_prefix : str) : str :=
  street ++ utf8 "#" ++ number_prefix.

(** [if number not in self.street_numbers[street]: ...append(number)] *)
Definition add_number (street number : str) : M unit :=
  known ← get street_numbers;
  match known !! street with
  | None => raise KeyError
  | Some l =>
      if decide (number ∈ l) then mret ()
      else set_street_numbers (<[street := l ++ [number]]> known)
  end.

Fixpoint explore_house_numbers (fuel : nat) (street number_prefix : str)
    : M unit :=
  match fuel with
  | O => raise OutOfFuel
  | S fuel =>
      completed ← get completed_number_queries;
      if decide (query_key street number_prefix ∈ completed) then mret ()
      else
        print (ExploringNumbers street number_prefix);;
        house_numbers ← fetch_house_numbers street number_prefix;
        known ← get street_numbers;
        match known !! street with
        | None => set_street_numbers (<[street := []]> known)
        | Some _ => mret ()
        end;;
        for_each house_numbers (add_number street);;
        if (length house_numbers =? 12)%nat then
          for_each (utf8 "0123456789") (λ digit,
            explore_house_numbers fuel street (number_prefix ++ [digit]))
        else
          completed ← get completed_number_queries;
          set_completed_number_queries
            ({[query_key street number_prefix]} ∪ completed)
  end.

Definition collect_house_numbers_for_street (fuel : nat) (street : str)
    : M unit :=
  known ← get street_numbers;
  match known !! street with
  | Some _ => print (AlreadyProcessed street)
  | None =>
      for_each (utf8 "123456789") (λ digit,
        explore_house_numbers fuel street [digit])
  end.

Definition add_street (street : str) : M unit :=
  names ← get street_names;
  set_street_names ({[street]} ∪ names).

Fixpoint explore_prefix (fuel : nat) (prefix : str) : M unit :=
  match fuel with
  | O => raise OutOfFuel
  | S fuel =>
      print (ExploringPrefix prefix);;
      streets ← fetch_streets prefix;
      for_each streets add_street;;
      if (length streets =? 12)%nat then
        for_each (get_next_characters prefix) (λ char,
          explore_prefix fuel (prefix ++ [char]))
      else
        completed ← get completed_queries;
        set_completed_queries ({[prefix]} ∪ completed)
  end.

Definition collect_streets_starting_with (fuel : nat) (letter : str)
    : M unit :=
  explore_prefix fuel letter.

Definition load_existing_data : M unit :=
  d ← get disk;
  match street_names_json d with
  | Some street_list =>
      set_street_names (list_to_set street_list);;
      names ← get street_names;
      print (LoadedStreetNames (size names))
  | None => mret ()
  end;;
  match completed_queries_json d with
  | Some query_list =>
      set_completed_queries (list_to_set query_list);;
      queries ← get completed_queries;
      print (LoadedCompletedQueries (size queries))
  | None => mret ()
  end;;
  match street_numbers_json d with
  | Some numbers =>
      set_street_numbers numbers;;
      print (LoadedHouseNumbers (size numbers))
  | None => mret ()
  end.

(** [str.isdigit] of one character. *)
Definition isdigit (c : N) : bool :=
  match char_class c with NotDigit => false | _ => true end.

(** [int] of a text of digit characters; [None] for [ValueError].  The
    limit that recent interpreters put on the length of such a text (4300
    digits unless configured) is left out. *)
Definition int (text : str) : option Z :=
  match text with
  | [] => None
  | _ =>
      foldl (λ acc c,
               a ← acc;
               match char_class c with
               | DecimalDigit v => Some (10 * a + v)%Z
               | _ => None
               end) (Some 0%Z) text
  end.

(** The sort key [lambda x: (int(''.join(filter(str.isdigit, x)) or '0'), x)]. *)
Definition number_key (x : str) : option (Z * str) :=
  let digits := filter (λ c, isdigit c) x in
  n ← int (match digits with [] => utf8 "0" | _ => digits end);
  Some (n, x).

(** The [try] / [except] around the sort of one street's numbers. *)
Definition sort_numbers (numbers : list str) : list str :=
  match mapM number_key numbers with
  | Some keys => sorted_with_keys key_lt keys numbers
  | None => sorted str_lt numbers
  end.

Definition total_house_numbers (m : gmap str (list str)) : nat :=
  sum_list (length <$> (map_to_list m).*2).

(** The three files are written one after the other; no step between
    them can fail in this model, so they are written as one. *)
Definition save_results : M unit :=
  names ← get street_names;
  queries ← get completed_queries;
  numbers ← get street_numbers;
  write_files
    {| street_names_json := Some (sorted str_lt (elements names));
       completed_queries_json := Some (sorted str_lt (elements queries));
       street_numbers_json := Some (sort_numbers <$> numbers) |};;
  print (FoundStreetNames (size names));;
  print (CompletedBranches (size queries));;
  print (FoundHouseNumbers (size numbers));;
  print (TotalHouseNumbers (total_house_numbers numbers)).

(** [enumerate(l, start)] *)
Fixpoint enumerate {A} (start : nat) (l : list A) : list (nat * A) :=
  match l with
  | [] => []
  | x :: r => (start, x) :: enumerate (S start) r
  end.

(** [main]; closing the client in [finally] leaves no trace here. *)
Definition main (fuel : nat) : M unit :=
  load_existing_data;;
  names ← get street_names;
  (if decide (names = ∅) then
     print CollectingStreetNames;;
     for_each (utf8 "ABCDEFGHIJKLMNOPQRSTUVWXYZÄÖÜ") (λ letter,
       print (StartingLetter letter);;
       collect_streets_starting_with fuel [letter];;
       names ← get street_names;
       queries ← get completed_queries;
       print (CurrentTotal (size names) (size queries)));;
     save_results;;
     print StreetCollectionComplete;;
     names ← get street_names;
     print (TotalStreetsFound (size names))
   else mret ());;
  print CollectingHouseNumbers;;
  names ← get street_names;
  print (ProcessingStreets (size names));;
  let street_list := sorted str_lt (elements names) in
  for_each (enumerate 1 street_list) (λ '(i, street),
    print (ProcessingStreet i (length street_list) street);;
    collect_house_numbers_for_street fuel street;;
    if (i mod 50 =? 0)%nat then
      save_results;;
      print (ProgressSaved i (length street_list))
    else mret ());;
  save_results;;
  print FinalResults;;
  names ← get street_names;
  print (TotalUniqueStreets (size names));;
  numbers ← get street_numbers;
  print (StreetsWithHouseNumbers (size numbers));;
  print (TotalHouseNumbers (total_house_numbers numbers)).

(** ** What the proofs speak about *)

(** The list a fetch returns. *)
Definition fetched {A} (o : outcome (list A)) : list A :=
  match o with Done l _ => l | Halt _ _ => [] end.

(** The [try] block of a fetch function leaves through [except]. *)
Definition raises (resp : response) : bool :=
  match resp with
  | Json data => match extract data with Some _ => false | None => true end
  | _ => true
  end.

(** The list a request returns after the requests [history]. *)
Definition answer (history : list request) (r : request) : list str :=
  match server history r with
  | Json data => default [] (extract data)
  | _ => []
  end.

(** The fetcher after the request [r] was sent, with the error line [ln]
    when the fetch failed. *)
Definition after_fetch (r : request) (ln : line) (s : fetcher) : fetcher :=
  if raises (server (requests s) r) then printed ln (sent r s) else sent r s.

(** The list of a street after the loop over [add_number]. *)
Definition add_numbers (l numbers : list str) : list str :=
  foldl (λ l number, if decide (number ∈ l) then l else l ++ [number])
    l numbers.

(** The fetcher of [explore_prefix] when it looks at [len(streets)]. *)
Definition after_streets (prefix : str) (s : fetcher) : fetcher :=
  let streets := answer (requests s) (GetStreets prefix) in
  let s1 := after_fetch (GetStreets prefix) (ErrorFetchingStreets prefix)
              (printed (ExploringPrefix prefix) s) in
  with_street_names
    (foldl (λ X street, {[street]} ∪ X) (street_names s1) streets) s1.

(** The fetcher of [explore_house_numbers] when it looks at
    [len(house_numbers)]. *)
Definition after_numbers (street number_prefix : str) (s : fetcher) : fetcher :=
  let r := number_params street number_prefix in
  let s1 := after_fetch r (ErrorFetchingNumbers street number_prefix)
              (printed (ExploringNumbers street number_prefix) s) in
  with_street_numbers
    (<[street := add_numbers (default [] (street_numbers s1 !! street))
                   (answer (requests s) r)]> (street_numbers s1)) s1.

(** Nothing is forgotten between [s] and [s']: the sets grow, the lists of
    house numbers and the traces are extended at their ends. *)
Record grows (s s' : fetcher) : Prop := {
  grows_street_names : street_names s ⊆ street_names s';
  grows_completed_queries : completed_queries s ⊆ completed_queries s';
  grows_street_numbers : ∀ street l,
    street_numbers s !! street = Some l →
    ∃ more, street_numbers s' !! street = Some (l ++ more);
  grows_completed_number_queries :
    completed_number_queries s ⊆ completed_number_queries s';
  grows_requests : requests s `prefix_of` requests s';
  grows_stdout : stdout s `prefix_of` stdout s';
}.

(** The requests sent between [s] and [s'] all satisfy [P]. *)
Definition sends (P : request → Prop) (s s' : fetcher) : Prop :=
  ∃ new, requests s' = requests s ++ new ∧ Forall P new.

(** [q] is [p] followed by more characters, by at least one character. *)
Definition extends (p q : str) : Prop := ∃ r, q = p ++ r.
Definition extends_strictly (p q : str) : Prop := ∃ c r, q = p ++ c :: r.

Definition digits : str := utf8 "0123456789".

(** The same with digits only. *)
Definition extends_by_digits (p q : str) : Prop :=
  ∃ r, Forall (λ c, c ∈ digits) r ∧ q = p ++ r.
Definition extends_strictly_by_digits (p q : str) : Prop :=
  ∃ c r, c ∈ digits ∧ Forall (λ c, c ∈ digits) r ∧ q = p ++ c :: r.

(** What a street exploration among the prefixes [P] can do: query
    prefixes in [P], complete prefixes in [P], and nothing else. *)
Record street_tree (P : str → Prop) (s s' : fetcher) : Prop := {
  street_tree_requests : sends (λ r, ∃ q, P q ∧ r = GetStreets q) s s';
  street_tree_completed : ∀ k,
    k ∈ completed_queries s' → k ∈ completed_queries s ∨ P k;
  street_tree_numbers : street_numbers s' = street_numbers s;
  street_tree_number_queries :
    completed_number_queries s' = completed_number_queries s;
  street_tree_disk : disk s' = disk s;
}.

(** The same for the house numbers of [street]. *)
Record number_tree (street : str) (P : str → Prop) (s s' : fetcher)
    : Prop := {
  number_tree_requests :
    sends (λ r, ∃ q, P q ∧ r = number_params street q) s s';
  number_tree_completed : ∀ k,
    k ∈ completed_number_queries s' →
    k ∈ completed_number_queries s ∨ ∃ q, P q ∧ k = query_key street q;
  number_tree_names : street_names s' = street_names s;
  number_tree_queries : completed_queries s' = completed_queries s;
  number_tree_others : ∀ street',
    street' ≠ street → street_numbers s' !! street' = street_numbers s !! street';
  number_tree_disk : disk s' = disk s;
}.

(** How often the request [r] occurs in a trace. *)
Definition count (r : request) (l : list request) : nat :=
  length (filter (λ x, x = r) l).

(** [post R m]: however [m] ends, the fetcher it leaves is [R]-related to
    the one it started from. *)
Definition post {A} (R : relation fetcher) (m : M A) : Prop :=
  ∀ s, R s (state_of (m s)).

(** The methods of the fetcher and [main], as calls. *)
Inductive call :=
  | FetchStreets (prefix : str)
  | FetchHouseNumbers (street number_prefix : str)
  | ExploreHouseNumbers (street number_prefix : str)
  | CollectHouseNumbersForStreet (street : str)
  | ExplorePrefix (prefix : str)
  | CollectStreetsStartingWith (letter : str)
  | LoadExistingData
  | SaveResults
  | Main.

Definition run (fuel : nat) (c : call) : M unit :=
  match c with
  | FetchStreets prefix => fetch_streets prefix ;; mret ()
  | FetchHouseNumbers street p => fetch_house_numbers street p ;; mret ()
  | ExploreHouseNumbers street p => explore_house_numbers fuel street p
  | CollectHouseNumbersForStreet street =>
      collect_house_numbers_for_street fuel street
  | ExplorePrefix prefix => explore_prefix fuel prefix
  | CollectStreetsStartingWith letter =>
      collect_streets_starting_with fuel letter
  | LoadExistingData => load_existing_data
  | SaveResults => save_results
  | Main => main fuel
  end.

(** The calls that read the files into the attributes. *)
Definition reloads (c : call) : bool :=
  match c with LoadExistingData | Main => true | _ => false end.

(** A sequence of calls, each with its recursion budget, one after the
    other on the same fetcher. *)
Definition run_all (calls : list (nat * call)) (s : fetcher) : fetcher :=
  foldl (λ s c, state_of (run c.1 c.2 s)) s calls.

(** The orders behind the two comparisons, and the order of two house
    numbers whose keys exist. *)
Definition str_le (a b : str) : Prop := str_lt b a = false.
Definition key_le (k1 k2 : Z * str) : Prop := key_lt k2 k1 = false.
Definition number_le (x y : str) : Prop :=
  ∃ kx ky, number_key x = Some kx ∧ number_key y = Some ky ∧ key_le kx ky.

(** No list of house numbers has an entry twice, in the fetcher and in
    the file. *)
Definition no_duplicates (s : fetcher) : Prop :=
  (∀ street l, street_numbers s !! street = Some l → NoDup l)
  ∧ (∀ m street l,
       street_numbers_json (disk s) = Some m → m !! street = Some l → NoDup l).

(** Every completed house-number key over a digit prefix belongs to a
    street that has its entry in [street_numbers]. *)
Definition completed_keys_known (s : fetcher) : Prop :=
  ∀ street p,
    Forall (λ c, c ∈ digits) p →
    query_key street p ∈ completed_number_queries s →
    is_Some (street_numbers s !! street).

(** [s'] has the property [I] if [s] has it. *)
Definition keeps (I : fetcher → Prop) : relation fetcher := λ s s', I s → I s'.

(** The house-number calls are made with digit prefixes. *)
Definition digit_prefix (c : call) : Prop :=
  match c with
  | FetchHouseNumbers _ p | ExploreHouseNumbers _ p => Forall (λ c, c ∈ digits) p
  | _ => True
  end.

(** A completed key of [done] that is new in [s'] was asked for between
    [s] and [s'], where [ask k r] says that [r] is the request for [k]. *)
Definition asked_first (done : fetcher → gset str)
    (ask : str → request → Prop) (s s' : fetcher) : Prop :=
  ∃ new, requests s' = requests s ++ new
         ∧ ∀ k, k ∈ done s' → k ∈ done s ∨ ∃ r, ask k r ∧ r ∈ new.

(** The files that [save_results] writes from the attributes of [s]. *)
Definition snapshot (s : fetcher) : files :=
  {| street_names_json := Some (sorted str_lt (elements (street_names s)));
     completed_queries_json :=
       Some (sorted str_lt (elements (completed_queries s)));
     street_numbers_json := Some (sort_numbers <$> street_numbers s) |}.

(** [triple P m Q]: when [m] starts in a fetcher with [P] and returns, it
    leaves a fetcher with [Q]. *)
Definition triple {A} (P : fetcher → Prop) (m : M A) (Q : fetcher → Prop)
    : Prop :=
  ∀ s, P s → returned (m s) = true → Q (state_of (m s)).

(** The street is a key of [street_numbers]. *)
Definition processed (street : str) (s : fetcher) : Prop :=
  is_Some (street_numbers s !! street).

(** [total P m Q]: started in a fetcher with [P], [m] returns and leaves
    a fetcher with [Q]. *)
Definition total {A} (P : fetcher → Prop) (m : M A) (Q : fetcher → Prop)
    : Prop :=
  ∀ s, P s → ∃ a s', m s = Done a s' ∧ Q s'.

(** * Properties *)

(** ** One step of each method *)

(** Runs the statements whose effect is known; calls stay folded. *)
Ltac run :=
  cbv beta iota delta
    [mbind M_bind mret M_ret get modify raise print send set_street_names
     set_completed_queries set_street_numbers set_completed_number_queries
     write_files].

Lemma fetch_streets_eq prefix s :
  fetch_streets prefix s
  = Done (answer (requests s) (GetStreets prefix))
      (after_fetch (GetStreets prefix) (ErrorFetchingStreets prefix) s).
Proof.
  unfold fetch_streets, answer, after_fetch, raises. run.
  destruct (server _ _) as [| | |data]; try reflexivity.
  destruct (extract data); reflexivity.
Qed.

Lemma fetch_house_numbers_eq street number_prefix s :
  fetch_house_numbers street number_prefix s
  = Done (answer (requests s) (number_params street number_prefix))
      (after_fetch (number_params street number_prefix)
         (ErrorFetchingNumbers street number_prefix) s).
Proof.
  unfold fetch_house_numbers, answer, after_fetch, raises. run.
  destruct (server _ _) as [| | |data]; try reflexivity.
  destruct (extract data); reflexivity.
Qed.

(** Projects an updated fetcher on one attribute. *)
Ltac fields :=
  cbn [street_names completed_queries street_numbers completed_number_queries
       requests stdout disk with_street_names with_completed_queries
       with_street_numbers with_completed_number_queries with_disk printed
       sent state_of].

Lemma bind_run {A B} (m : M A) (f : A → M B) s :
  (m ≫= f) s
  = match m s with Done a s' => f a s' | Halt h s' => Halt h s' end.
Proof. reflexivity. Qed.

Lemma add_street_eq street s :
  add_street street s
  = Done () (with_street_names ({[street]} ∪ street_names s) s).
Proof. reflexivity. Qed.

Lemma add_number_eq street number l s :
  street_numbers s !! street = Some l →
  add_number street number s
  = Done () (if decide (number ∈ l) then s
             else with_street_numbers
                    (<[street := l ++ [number]]> (street_numbers s)) s).
Proof.
  intros Hl. unfold add_number. run. rewrite Hl.
  destruct (decide _); reflexivity.
Qed.

Lemma for_each_add_street streets s :
  for_each streets add_street s
  = Done () (with_street_names
               (foldl (λ X street, {[street]} ∪ X) (street_names s) streets) s).
Proof.
  revert s. induction streets as [|x l IH]; intros s.
  - destruct s; reflexivity.
  - simpl for_each. rewrite bind_run, add_street_eq, IH.
    destruct s; reflexivity.
Qed.

Lemma for_each_add_number street numbers l s :
  street_numbers s !! street = Some l →
  for_each numbers (add_number street) s
  = Done () (with_street_numbers
               (<[street := add_numbers l numbers]> (street_numbers s)) s).
Proof.
  revert s l. induction numbers as [|x r IH]; intros s l Hl.
  - simpl. run. rewrite insert_id by done. destruct s; reflexivity.
  - simpl for_each. rewrite bind_run, (add_number_eq _ _ l) by done.
    simpl add_numbers. destruct (decide (x ∈ l)).
    + by apply IH.
    + erewrite IH by apply lookup_insert_eq.
      simpl. by rewrite insert_insert_eq.
Qed.

Lemma explore_prefix_eq fuel prefix s :
  explore_prefix (S fuel) prefix s
  = let s1 := after_streets prefix s in
    if (length (answer (requests s) (GetStreets prefix)) =? 12)%nat
    then for_each (get_next_characters prefix)
           (λ char, explore_prefix fuel (prefix ++ [char])) s1
    else Done () (with_completed_queries
                    ({[prefix]} ∪ completed_queries s1) s1).
Proof.
  simpl explore_prefix. run. rewrite fetch_streets_eq.
  rewrite for_each_add_street.
  destruct (_ =? 12)%nat; reflexivity.
Qed.

Lemma explore_house_numbers_eq fuel street number_prefix s :
  explore_house_numbers (S fuel) street number_prefix s
  = if decide (query_key street number_prefix ∈ completed_number_queries s)
    then Done () s
    else
      let s1 := after_numbers street number_prefix s in
      if (length (answer (requests s) (number_params street number_prefix))
          =? 12)%nat
      then for_each digits
             (λ digit, explore_house_numbers fuel street
                         (number_prefix ++ [digit])) s1
      else Done () (with_completed_number_queries
                      ({[query_key street number_prefix]}
                         ∪ completed_number_queries s1) s1).
Proof.
  simpl explore_house_numbers. run.
  destruct (decide _) as [|Hk]; [reflexivity|].
  rewrite fetch_house_numbers_eq.
  set (r := number_params street number_prefix).
  set (ln := ErrorFetchingNumbers street number_prefix).
  set (s0 := printed _ s).
  change (requests s0) with (requests s).
  unfold after_numbers. fold r ln s0.
  destruct (street_numbers (after_fetch r ln s0) !! street) as [l|] eqn:Hl.
  - erewrite for_each_add_number by exact Hl. simpl default.
    destruct (_ =? 12)%nat; reflexivity.
  - erewrite for_each_add_number by (simpl; apply lookup_insert_eq).
    simpl. rewrite insert_insert_eq.
    destruct (_ =? 12)%nat; reflexivity.
Qed.

(** ** Projections of the intermediate fetchers *)

Lemma after_fetch_requests r ln s :
  requests (after_fetch r ln s) = requests s ++ [r].
Proof. unfold after_fetch. by destruct (raises _). Qed.

Lemma after_fetch_stdout r ln s :
  stdout (after_fetch r ln s)
  = stdout s ++ (if raises (server (requests s) r) then [ln] else []).
Proof. unfold after_fetch. destruct (raises _); simpl; by rewrite ?app_nil_r. Qed.

Lemma after_fetch_street_names r ln s :
  street_names (after_fetch r ln s) = street_names s.
Proof. unfold after_fetch. by destruct (raises _). Qed.

Lemma after_fetch_completed_queries r ln s :
  completed_queries (after_fetch r ln s) = completed_queries s.
Proof. unfold after_fetch. by destruct (raises _). Qed.

Lemma after_fetch_street_numbers r ln s :
  street_numbers (after_fetch r ln s) = street_numbers s.
Proof. unfold after_fetch. by destruct (raises _). Qed.

Lemma after_fetch_completed_number_queries r ln s :
  completed_number_queries (after_fetch r ln s) = completed_number_queries s.
Proof. unfold after_fetch. by destruct (raises _). Qed.

Lemma after_fetch_disk r ln s : disk (after_fetch r ln s) = disk s.
Proof. unfold after_fetch. by destruct (raises _). Qed.

Lemma elem_of_foldl_add (X : gset str) l y :
  y ∈ foldl (λ X x, {[x]} ∪ X) X l ↔ y ∈ l ∨ y ∈ X.
Proof.
  revert X. induction l as [|x l IH]; intros X; simpl.
  - rewrite elem_of_nil. tauto.
  - rewrite IH, elem_of_cons, elem_of_union, elem_of_singleton. tauto.
Qed.

Lemma after_streets_requests prefix s :
  requests (after_streets prefix s) = requests s ++ [GetStreets prefix].
Proof. unfold after_streets. simpl. by rewrite after_fetch_requests. Qed.

Lemma after_streets_street_names prefix s y :
  y ∈ street_names (after_streets prefix s)
  ↔ y ∈ answer (requests s) (GetStreets prefix) ∨ y ∈ street_names s.
Proof.
  unfold after_streets. simpl.
  by rewrite elem_of_foldl_add, after_fetch_street_names.
Qed.

Lemma after_streets_completed_queries prefix s :
  completed_queries (after_streets prefix s) = completed_queries s.
Proof. unfold after_streets. simpl. by rewrite after_fetch_completed_queries. Qed.

Lemma after_streets_street_numbers prefix s :
  street_numbers (after_streets prefix s) = street_numbers s.
Proof. unfold after_streets. simpl. by rewrite after_fetch_street_numbers. Qed.

Lemma after_streets_completed_number_queries prefix s :
  completed_number_queries (after_streets prefix s)
  = completed_number_queries s.
Proof.
  unfold after_streets. simpl.
  by rewrite after_fetch_completed_number_queries.
Qed.

Lemma after_streets_disk prefix s : disk (after_streets prefix s) = disk s.
Proof. unfold after_streets. simpl. by rewrite after_fetch_disk. Qed.

Lemma after_streets_stdout prefix s :
  stdout (after_streets prefix s)
  = stdout s ++ ExploringPrefix prefix
      :: (if raises (server (requests s) (GetStreets prefix))
          then [ErrorFetchingStreets prefix] else []).
Proof.
  unfold after_streets. simpl. rewrite after_fetch_stdout. simpl.
  by rewrite <- app_assoc.
Qed.

Lemma after_numbers_requests street p s :
  requests (after_numbers street p s) = requests s ++ [number_params street p].
Proof. unfold after_numbers. simpl. by rewrite after_fetch_requests. Qed.

Lemma after_numbers_street_names street p s :
  street_names (after_numbers street p s) = street_names s.
Proof. unfold after_numbers. simpl. by rewrite after_fetch_street_names. Qed.

Lemma after_numbers_completed_queries street p s :
  completed_queries (after_numbers street p s) = completed_queries s.
Proof. unfold after_numbers. simpl. by rewrite after_fetch_completed_queries. Qed.

Lemma after_numbers_street_numbers street p s :
  street_numbers (after_numbers street p s)
  = <[street := add_numbers (default [] (street_numbers s !! street))
                  (answer (requests s) (number_params street p))]>
      (street_numbers s).
Proof. unfold after_numbers. simpl. by rewrite after_fetch_street_numbers. Qed.

Lemma after_numbers_completed_number_queries street p s :
  completed_number_queries (after_numbers street p s)
  = completed_number_queries s.
Proof.
  unfold after_numbers. simpl.
  by rewrite after_fetch_completed_number_queries.
Qed.

Lemma after_numbers_disk street p s : disk (after_numbers street p s) = disk s.
Proof. unfold after_numbers. simpl. by rewrite after_fetch_disk. Qed.

Lemma after_numbers_stdout street p s :
  stdout (after_numbers street p s)
  = stdout s ++ ExploringNumbers street p
      :: (if raises (server (requests s) (number_params street p))
          then [ErrorFetchingNumbers street p] else []).
Proof.
  unfold after_numbers. simpl. rewrite after_fetch_stdout. simpl.
  by rewrite <- app_assoc.
Qed.

(** ** Loops *)

Lemma for_each_post {A} (R : relation fetcher) `{!PreOrder R}
    (l : list A) (body : A → M unit) s :
  (∀ x s0, x ∈ l → R s0 (state_of (body x s0))) →
  R s (state_of (for_each l body s)).
Proof.
  revert s. induction l as [|x l IH]; intros s Hbody; simpl.
  - reflexivity.
  - rewrite bind_run.
    pose proof (Hbody x s (list_elem_of_here _ _)) as Hx.
    destruct (body x s) as [[] s1|h s1]; simpl in *; [|done].
    etrans; [exact Hx|]. apply IH. intros y s0 Hy. apply Hbody. by right.
Qed.

(** ** Nothing is forgotten *)

Lemma add_numbers_app l numbers : ∃ more, add_numbers l numbers = l ++ more.
Proof.
  revert l. induction numbers as [|x r IH]; intros l; simpl.
  - exists []. by rewrite app_nil_r.
  - destruct (decide (x ∈ l)); [apply IH|].
    destruct (IH (l ++ [x])) as [more ->]. exists (x :: more).
    by rewrite <- app_assoc.
Qed.

Global Instance grows_preorder : PreOrder grows.
Proof.
  split.
  - intros s. split; try done. intros street l ->. exists []. by rewrite app_nil_r.
  - intros s1 s2 s3 [] []. split; try (etrans; eassumption).
    intros street l Hl.
    destruct (grows_street_numbers0 _ _ Hl) as [m1 H1].
    destruct (grows_street_numbers1 _ _ H1) as [m2 H2].
    exists (m1 ++ m2). by rewrite app_assoc.
Qed.

Lemma grows_after_streets prefix s : grows s (after_streets prefix s).
Proof.
  split.
  - intros y Hy. apply after_streets_street_names. by right.
  - by rewrite after_streets_completed_queries.
  - intros street l Hl. exists []. by rewrite after_streets_street_numbers, app_nil_r.
  - by rewrite after_streets_completed_number_queries.
  - rewrite after_streets_requests. by apply prefix_app_r.
  - rewrite after_streets_stdout. by apply prefix_app_r.
Qed.

Lemma grows_after_numbers street p s : grows s (after_numbers street p s).
Proof.
  split.
  - by rewrite after_numbers_street_names.
  - by rewrite after_numbers_completed_queries.
  - intros street' l Hl. rewrite after_numbers_street_numbers.
    destruct (decide (street = street')) as [<-|Hne].
    + rewrite lookup_insert_eq, Hl. simpl.
      destruct (add_numbers_app l (answer (requests s) (number_params street p)))
        as [more ->]. by exists more.
    + exists []. by rewrite lookup_insert_ne, app_nil_r.
  - by rewrite after_numbers_completed_number_queries.
  - rewrite after_numbers_requests. by apply prefix_app_r.
  - rewrite after_numbers_stdout. by apply prefix_app_r.
Qed.

Lemma grows_with_completed_queries k s :
  grows s (with_completed_queries ({[k]} ∪ completed_queries s) s).
Proof.
  split; simpl; try done; [apply union_subseteq_r|].
  intros street l ->. exists []. by rewrite app_nil_r.
Qed.

Lemma grows_with_completed_number_queries k s :
  grows s (with_completed_number_queries
             ({[k]} ∪ completed_number_queries s) s).
Proof.
  split; simpl; try done; [|apply union_subseteq_r].
  intros street l ->. exists []. by rewrite app_nil_r.
Qed.

Lemma grows_explore_prefix fuel prefix s :
  grows s (state_of (explore_prefix fuel prefix s)).
Proof.
  revert prefix s. induction fuel as [|fuel IH]; intros prefix s.
  - reflexivity.
  - rewrite explore_prefix_eq. cbv zeta.
    etrans; [apply grows_after_streets|].
    destruct (_ =? 12)%nat.
    + apply (for_each_post grows). intros. apply IH.
    + apply grows_with_completed_queries.
Qed.

Lemma grows_explore_house_numbers fuel street p s :
  grows s (state_of (explore_house_numbers fuel street p s)).
Proof.
  revert p s. induction fuel as [|fuel IH]; intros p s.
  - reflexivity.
  - rewrite explore_house_numbers_eq.
    destruct (decide _); [reflexivity|]. cbv zeta.
    etrans; [apply grows_after_numbers|].
    destruct (_ =? 12)%nat.
    + apply (for_each_post grows). intros. apply IH.
    + apply grows_with_completed_number_queries.
Qed.

(** ** The subtree of a prefix *)

Global Instance sends_preorder P : PreOrder (sends P).
Proof.
  split.
  - intros s. exists []. by rewrite app_nil_r.
  - intros s1 s2 s3 (n1 & E1 & F1) (n2 & E2 & F2). exists (n1 ++ n2).
    rewrite E2, E1, app_assoc. split; [done|]. by apply Forall_app.
Qed.

Lemma sends_same P s s' : requests s' = requests s → sends P s s'.
Proof. intros E. exists []. by rewrite E, app_nil_r. Qed.

Lemma sends_weaken (P Q : request → Prop) s s' :
  (∀ r, P r → Q r) → sends P s s' → sends Q s s'.
Proof.
  intros HPQ (new & E & F). exists new. split; [done|].
  eapply Forall_impl; eauto.
Qed.

Lemma extends_refl p : extends p p.
Proof. exists []. by rewrite app_nil_r. Qed.

Lemma extends_child p c q : extends (p ++ [c]) q → extends_strictly p q.
Proof. intros [r ->]. exists c, r. by rewrite <- app_assoc. Qed.

Lemma extends_strictly_extends p q : extends_strictly p q → extends p q.
Proof. intros (c & r & ->). by exists (c :: r). Qed.

Lemma extends_strictly_ne p : ¬ extends_strictly p p.
Proof.
  intros (c & r & E). apply (f_equal length) in E.
  rewrite length_app in E. simpl in E. lia.
Qed.

Lemma extends_by_digits_refl p : extends_by_digits p p.
Proof. exists []. by rewrite app_nil_r. Qed.

Lemma extends_by_digits_child p c q :
  c ∈ digits → extends_by_digits (p ++ [c]) q → extends_strictly_by_digits p q.
Proof. intros Hc (r & Hr & ->). exists c, r. by rewrite <- app_assoc. Qed.

Lemma extends_strictly_by_digits_extends p q :
  extends_strictly_by_digits p q → extends_by_digits p q.
Proof. intros (c & r & Hc & Hr & ->). exists (c :: r). by split; [constructor|]. Qed.

Global Instance street_tree_preorder P : PreOrder (street_tree P).
Proof.
  split.
  - intros s. split; try done; try reflexivity; by left.
  - intros s1 s2 s3 [] []. split; try (etrans; eassumption).
    intros k Hk. destruct (street_tree_completed1 k Hk) as [H2|H2]; [|by right].
    by apply street_tree_completed0.
Qed.

Lemma street_tree_weaken (P Q : str → Prop) s s' :
  (∀ q, P q → Q q) → street_tree P s s' → street_tree Q s s'.
Proof.
  intros HPQ []. split; try done.
  - eapply sends_weaken; [|done]. intros r (q & Hq & ->). eauto.
  - intros k Hk. destruct (street_tree_completed0 k Hk); auto.
Qed.

Lemma street_tree_after_streets p s :
  street_tree (extends p) s (after_streets p s).
Proof.
  split.
  - exists [GetStreets p]. rewrite after_streets_requests. split; [done|].
    constructor; [|done]. exists p. split; [apply extends_refl|done].
  - rewrite after_streets_completed_queries. by left.
  - apply after_streets_street_numbers.
  - apply after_streets_completed_number_queries.
  - apply after_streets_disk.
Qed.

Lemma street_tree_mark p s :
  street_tree (extends p) s
    (with_completed_queries ({[p]} ∪ completed_queries s) s).
Proof.
  split; try done; [by apply sends_same|].
  intros k [->%elem_of_singleton|Hk]%elem_of_union; [right|by left].
  apply extends_refl.
Qed.

Lemma street_tree_explore_prefix fuel p s :
  street_tree (extends p) s (state_of (explore_prefix fuel p s)).
Proof.
  revert p s. induction fuel as [|fuel IH]; intros p s.
  - reflexivity.
  - rewrite explore_prefix_eq. cbv zeta.
    etrans; [apply street_tree_after_streets|].
    destruct (_ =? 12)%nat.
    + apply (for_each_post (street_tree (extends p))). intros c s0 _.
      eapply street_tree_weaken, IH.
      intros q Hq. by eapply extends_strictly_extends, extends_child.
    + apply street_tree_mark.
Qed.

(** The loop over the children of [p]. *)
Lemma street_tree_children fuel p l s :
  street_tree (extends_strictly p) s
    (state_of (for_each l (λ char, explore_prefix fuel (p ++ [char])) s)).
Proof.
  apply (for_each_post (street_tree (extends_strictly p))). intros c s0 _.
  eapply street_tree_weaken, street_tree_explore_prefix.
  intros q. apply extends_child.
Qed.

Global Instance number_tree_preorder street P : PreOrder (number_tree street P).
Proof.
  split.
  - intros s. split; try done; try reflexivity; by left.
  - intros s1 s2 s3 [] []. split; try (etrans; eassumption).
    + intros k Hk. destruct (number_tree_completed1 k Hk) as [H2|H2]; [|by right].
      by apply number_tree_completed0.
    + intros street' Hne. by rewrite number_tree_others1, number_tree_others0.
Qed.

Lemma number_tree_weaken street (P Q : str → Prop) s s' :
  (∀ q, P q → Q q) → number_tree street P s s' → number_tree street Q s s'.
Proof.
  intros HPQ []. split; try done.
  - eapply sends_weaken; [|done]. intros r (q & Hq & ->). eauto.
  - intros k Hk.
    destruct (number_tree_completed0 k Hk) as [|(q & Hq & ->)]; eauto.
Qed.

Lemma number_tree_after_numbers street p s :
  number_tree street (extends_by_digits p) s (after_numbers street p s).
Proof.
  split.
  - exists [number_params street p]. rewrite after_numbers_requests.
    split; [done|]. constructor; [|done]. exists p.
    split; [apply extends_by_digits_refl|done].
  - rewrite after_numbers_completed_number_queries. by left.
  - apply after_numbers_street_names.
  - apply after_numbers_completed_queries.
  - intros street' Hne. rewrite after_numbers_street_numbers.
    by apply lookup_insert_ne.
  - apply after_numbers_disk.
Qed.

Lemma number_tree_mark street p s :
  number_tree street (extends_by_digits p) s
    (with_completed_number_queries
       ({[query_key street p]} ∪ completed_number_queries s) s).
Proof.
  split; try done; [by apply sends_same|].
  intros k [->%elem_of_singleton|Hk]%elem_of_union; [right|by left].
  exists p. split; [apply extends_by_digits_refl|done].
Qed.

Lemma number_tree_explore_house_numbers fuel street p s :
  number_tree street (extends_by_digits p) s
    (state_of (explore_house_numbers fuel street p s)).
Proof.
  revert p s. induction fuel as [|fuel IH]; intros p s.
  - reflexivity.
  - rewrite explore_house_numbers_eq.
    destruct (decide _); [reflexivity|]. cbv zeta.
    etrans; [apply number_tree_after_numbers|].
    destruct (_ =? 12)%nat.
    + apply (for_each_post (number_tree street (extends_by_digits p))).
      intros c s0 Hc. eapply number_tree_weaken, IH.
      intros q Hq.
      by eapply extends_strictly_by_digits_extends, extends_by_digits_child.
    + apply number_tree_mark.
Qed.

Lemma number_tree_children fuel street p l s :
  l ⊆ digits →
  number_tree street (extends_strictly_by_digits p) s
    (state_of (for_each l (λ digit,
                 explore_house_numbers fuel street (p ++ [digit])) s)).
Proof.
  intros Hl.
  apply (for_each_post (number_tree street (extends_strictly_by_digits p))).
  intros c s0 Hc.
  eapply number_tree_weaken, number_tree_explore_house_numbers.
  intros q. apply extends_by_digits_child. by apply Hl.
Qed.

(** ** The completed-prefix guard *)

Lemma explore_house_numbers_completed fuel street p s :
  query_key street p ∈ completed_number_queries s →
  explore_house_numbers (S fuel) street p s = Done () s.
Proof.
  intros Hk. rewrite explore_house_numbers_eq. by rewrite decide_True.
Qed.

Lemma explore_prefix_always_queries fuel prefix s :
  ∃ rest, requests (state_of (explore_prefix (S fuel) prefix s))
          = requests s ++ GetStreets prefix :: rest.
Proof.
  rewrite explore_prefix_eq. cbv zeta.
  destruct (_ =? 12)%nat.
  - destruct (street_tree_requests _ _ _
      (street_tree_children fuel prefix (get_next_characters prefix)
         (after_streets prefix s))) as (rest & E & _).
    exists rest. rewrite E, after_streets_requests. by rewrite <- app_assoc.
  - exists []. fields. apply after_streets_requests.
Qed.

(** ** Failed queries *)

(** C4. When the [try] block of a fetch function raises (in [client.get],
    in [raise_for_status], in [response.json()] or while the suggestions
    are read), the function returns the empty list after one request and
    one error line; the explore call around it then returns after that one
    request, with nothing discovered and the prefix marked complete. *)
Theorem C4_failed_query_is_an_empty_answer fuel prefix street number_prefix s :
  (raises (server (requests s) (GetStreets prefix)) = true →
   (∃ s1, fetch_streets prefix s = Done [] s1
          ∧ requests s1 = requests s ++ [GetStreets prefix]
          ∧ stdout s1 = stdout s ++ [ErrorFetchingStreets prefix])
   ∧ (∃ s2, explore_prefix (S fuel) prefix s = Done () s2
            ∧ requests s2 = requests s ++ [GetStreets prefix]
            ∧ street_names s2 = street_names s
            ∧ prefix ∈ completed_queries s2))
  ∧ (raises (server (requests s) (number_params street number_prefix)) = true →
     (∃ s1, fetch_house_numbers street number_prefix s = Done [] s1
            ∧ requests s1 = requests s ++ [number_params street number_prefix]
            ∧ stdout s1
              = stdout s ++ [ErrorFetchingNumbers street number_prefix])
     ∧ (query_key street number_prefix ∉ completed_number_queries s →
        ∃ s2, explore_house_numbers (S fuel) street number_prefix s = Done () s2
              ∧ requests s2
                = requests s ++ [number_params street number_prefix]
              ∧ street_numbers s2 !! street
                = Some (default [] (street_numbers s !! street))
              ∧ query_key street number_prefix
                ∈ completed_number_queries s2)).
Proof.
  assert (Hempty : ∀ r, raises (server (requests s) r) = true →
                        answer (requests s) r = []).
  { intros r. unfold raises, answer. destruct (server _ _); try done.
    by destruct (extract _). }
  split; intros Hr; pose proof (Hempty _ Hr) as Ha; split.
  - eexists. rewrite fetch_streets_eq, Ha. split; [done|].
    rewrite after_fetch_requests, after_fetch_stdout, Hr. done.
  - eexists. rewrite explore_prefix_eq, Ha.
    change (length (@nil str) =? 12)%nat with false. cbv beta iota zeta.
    split; [done|]. fields.
    rewrite after_streets_requests. split; [done|]. split.
    + apply set_eq. intros y. rewrite after_streets_street_names, Ha.
      rewrite elem_of_nil. tauto.
    + apply elem_of_union_l. by apply elem_of_singleton.
  - eexists. rewrite fetch_house_numbers_eq, Ha. split; [done|].
    rewrite after_fetch_requests, after_fetch_stdout, Hr. done.
  - intros Hk. eexists. rewrite explore_house_numbers_eq, decide_False by done.
    rewrite Ha.
    change (length (@nil str) =? 12)%nat with false. cbv beta iota zeta.
    split; [done|]. fields.
    rewrite after_numbers_requests. split; [done|]. split.
    + rewrite after_numbers_street_numbers, Ha, lookup_insert_eq. done.
    + apply elem_of_union_l. by apply elem_of_singleton.
Qed.

(** ** The truncation threshold *)

Lemma fetched_streets prefix s :
  fetched (fetch_streets prefix s) = answer (requests s) (GetStreets prefix).
Proof. by rewrite fetch_streets_eq. Qed.

Lemma fetched_house_numbers street p s :
  fetched (fetch_house_numbers street p s)
  = answer (requests s) (number_params street p).
Proof. by rewrite fetch_house_numbers_eq. Qed.

Lemma query_key_inj street p q : query_key street p = query_key street q → p = q.
Proof. unfold query_key. by intros ?%app_inv_head%app_inv_head. Qed.

Lemma truncated_prefix_not_marked fuel prefix s :
  length (answer (requests s) (GetStreets prefix)) = 12%nat →
  prefix ∈ completed_queries (state_of (explore_prefix (S fuel) prefix s)) →
  prefix ∈ completed_queries s.
Proof.
  intros Heq. rewrite explore_prefix_eq. cbv zeta.
  rewrite Heq. change (12 =? 12)%nat with true. cbv iota.
  intros Hk.
  destruct (street_tree_completed _ _ _
    (street_tree_children fuel prefix (get_next_characters prefix)
       (after_streets prefix s)) _ Hk) as [Hk'|Hk'].
  - by rewrite after_streets_completed_queries in Hk'.
  - by apply extends_strictly_ne in Hk'.
Qed.

Lemma truncated_number_prefix_not_marked fuel street p s :
  length (answer (requests s) (number_params street p)) = 12%nat →
  query_key street p
    ∈ completed_number_queries
        (state_of (explore_house_numbers (S fuel) street p s)) →
  query_key street p ∈ completed_number_queries s.
Proof.
  intros Heq. rewrite explore_house_numbers_eq.
  destruct (decide _) as [|Hn]; [done|]. cbv zeta.
  rewrite Heq. change (12 =? 12)%nat with true. cbv iota.
  intros Hk.
  destruct (number_tree_completed _ _ _ _
    (number_tree_children fuel street p digits
       (after_numbers street p s) (λ _ H, H)) _ Hk)
    as [Hk'|(q & (c & r & _ & _ & ->) & E)].
  - by rewrite after_numbers_completed_number_queries in Hk'.
  - apply query_key_inj in E. exfalso.
    apply (extends_strictly_ne p). by exists c, r.
Qed.

(** C2. A query answered with fewer than 12 items makes the explore call
    return with the prefix completed and no further request; a query
    answered with exactly 12 items does not put the prefix into the
    completed set.  For house numbers the query is the one the call sends
    when the guard lets it through. *)
Theorem C2_completed_iff_below_threshold fuel prefix street number_prefix s :
  let streets := fetched (fetch_streets prefix s) in
  let numbers := fetched (fetch_house_numbers street number_prefix s) in
  let key := query_key street number_prefix in
  ((length streets < 12)%nat →
   ∃ s', explore_prefix (S fuel) prefix s = Done () s'
         ∧ prefix ∈ completed_queries s'
         ∧ requests s' = requests s ++ [GetStreets prefix])
  ∧ (length streets = 12%nat →
     prefix ∈ completed_queries (state_of (explore_prefix (S fuel) prefix s)) →
     prefix ∈ completed_queries s)
  ∧ ((length numbers < 12)%nat →
     key ∉ completed_number_queries s →
     ∃ s', explore_house_numbers (S fuel) street number_prefix s = Done () s'
           ∧ key ∈ completed_number_queries s'
           ∧ requests s' = requests s ++ [number_params street number_prefix])
  ∧ (length numbers = 12%nat →
     key ∈ completed_number_queries
             (state_of (explore_house_numbers (S fuel) street number_prefix s)) →
     key ∈ completed_number_queries s).
Proof.
  cbv zeta. rewrite fetched_streets, fetched_house_numbers.
  split; [|split; [|split]].
  - intros Hlt. eexists. rewrite explore_prefix_eq. cbv zeta.
    rewrite (proj2 (Nat.eqb_neq _ 12)) by lia.
    split; [done|]. fields. split.
    + apply elem_of_union_l. by apply elem_of_singleton.
    + apply after_streets_requests.
  - apply truncated_prefix_not_marked.
  - intros Hlt Hk. eexists.
    rewrite explore_house_numbers_eq, decide_False by done. cbv zeta.
    rewrite (proj2 (Nat.eqb_neq _ 12)) by lia.
    split; [done|]. fields. split.
    + apply elem_of_union_l. by apply elem_of_singleton.
    + apply after_numbers_requests.
  - apply truncated_number_prefix_not_marked.
Qed.

(** ** Child queries *)

Lemma count_cons r x l :
  count r (x :: l) = ((if decide (x = r) then 1 else 0) + count r l)%nat.
Proof. unfold count. rewrite filter_cons. by destruct (decide _). Qed.

Lemma count_app r l1 l2 : count r (l1 ++ l2) = (count r l1 + count r l2)%nat.
Proof. unfold count. by rewrite filter_app, length_app. Qed.

Lemma count_none r l : Forall (λ x, x ≠ r) l → count r l = 0%nat.
Proof.
  induction 1 as [|x l Hx _ IH]; [done|].
  by rewrite count_cons, decide_False, IH.
Qed.

Lemma number_params_inj street p q :
  number_params street p = number_params street q → p = q.
Proof. unfold number_params. destruct p, q; congruence. Qed.

Lemma child_ne_below p c x q : extends_strictly (p ++ [x]) q → q ≠ p ++ [c].
Proof.
  intros (c' & r & ->) E. apply (f_equal length) in E.
  rewrite !length_app in E. simpl in E. lia.
Qed.

Lemma child_ne_sibling p c x q : x ≠ c → extends (p ++ [x]) q → q ≠ p ++ [c].
Proof.
  intros Hne [r ->] E. rewrite <- app_assoc in E.
  apply app_inv_head in E. simpl in E. congruence.
Qed.

Lemma explore_prefix_first fuel q s :
  returned (explore_prefix fuel q s) = true →
  ∃ rest, requests (state_of (explore_prefix fuel q s))
          = requests s ++ GetStreets q :: rest
          ∧ Forall (λ r, ∃ q', extends_strictly q q' ∧ r = GetStreets q') rest.
Proof.
  destruct fuel as [|fuel]; [done|]. intros _.
  rewrite explore_prefix_eq. cbv zeta.
  destruct (_ =? 12)%nat.
  - destruct (street_tree_requests _ _ _
      (street_tree_children fuel q (get_next_characters q)
         (after_streets q s))) as (rest & E & F).
    exists rest. by rewrite E, after_streets_requests, <- app_assoc.
  - exists []. fields. by rewrite after_streets_requests.
Qed.

Lemma street_children_count fuel p l s c :
  NoDup l →
  returned (for_each l (λ x, explore_prefix fuel (p ++ [x])) s) = true →
  ∃ new,
    requests (state_of (for_each l (λ x, explore_prefix fuel (p ++ [x])) s))
    = requests s ++ new
    ∧ count (GetStreets (p ++ [c])) new = if decide (c ∈ l) then 1%nat else 0%nat.
Proof.
  revert s. induction l as [|x l IH]; intros s Hnd Hret.
  - exists []. split; [by rewrite app_nil_r|].
    by rewrite decide_False by apply not_elem_of_nil.
  - apply NoDup_cons in Hnd as [Hx Hnd]. simpl for_each in *.
    rewrite bind_run in *.
    destruct (explore_prefix_first fuel (p ++ [x]) s) as (rest & E1 & F1).
    { by destruct (explore_prefix fuel (p ++ [x]) s). }
    destruct (explore_prefix fuel (p ++ [x]) s) as [[] s1|]; [|done].
    simpl in E1. destruct (IH s1 Hnd Hret) as (new & E2 & Hc).
    exists (GetStreets (p ++ [x]) :: rest ++ new).
    split; [by rewrite E2, E1, <- app_assoc|].
    rewrite count_cons, count_app, Hc, (count_none _ rest).
    + destruct (decide (x = c)) as [->|Hne].
      * rewrite decide_True by done.
        rewrite (decide_False (P := c ∈ l)) by done.
        by rewrite decide_True by apply list_elem_of_here.
      * rewrite decide_False by (intros [= E%app_inv_head]; congruence).
        destruct (decide (c ∈ l)).
        -- by rewrite decide_True by by right.
        -- rewrite decide_False; [done|]. by intros [->|]%elem_of_cons.
    + eapply Forall_impl; [exact F1|]. intros r (q' & Hq' & ->) [= E].
      by eapply child_ne_below.
Qed.

Lemma explore_house_numbers_first fuel street q s :
  returned (explore_house_numbers fuel street q s) = true →
  query_key street q ∉ completed_number_queries s →
  ∃ rest, requests (state_of (explore_house_numbers fuel street q s))
          = requests s ++ number_params street q :: rest
          ∧ Forall (λ r, ∃ q', extends_strictly_by_digits q q'
                               ∧ r = number_params street q') rest.
Proof.
  destruct fuel as [|fuel]; [done|]. intros _ Hk.
  rewrite explore_house_numbers_eq, decide_False by done. cbv zeta.
  destruct (_ =? 12)%nat.
  - destruct (number_tree_requests _ _ _ _
      (number_tree_children fuel street q digits
         (after_numbers street q s) (λ _ H, H))) as (rest & E & F).
    exists rest. by rewrite E, after_numbers_requests, <- app_assoc.
  - exists []. fields. by rewrite after_numbers_requests.
Qed.

Lemma explore_house_numbers_skip fuel street q s :
  returned (explore_house_numbers fuel street q s) = true →
  query_key street q ∈ completed_number_queries s →
  state_of (explore_house_numbers fuel street q s) = s.
Proof.
  destruct fuel as [|fuel]; [done|]. intros _ Hk.
  by rewrite explore_house_numbers_completed.
Qed.

(** A sibling subtree does not complete the key of the child [c]. *)
Lemma sibling_keeps_key fuel street p x c s :
  x ≠ c →
  query_key street (p ++ [c])
    ∈ completed_number_queries
        (state_of (explore_house_numbers fuel street (p ++ [x]) s))
  ↔ query_key street (p ++ [c]) ∈ completed_number_queries s.
Proof.
  intros Hne. split.
  - intros Hk.
    destruct (number_tree_completed _ _ _ _
      (number_tree_explore_house_numbers fuel street (p ++ [x]) s) _ Hk)
      as [|(q & (r & _ & ->) & E)]; [done|].
    apply query_key_inj in E. exfalso.
    eapply (child_ne_sibling p c x); [done|by exists r|done].
  - apply (grows_completed_number_queries _ _
             (grows_explore_house_numbers fuel street (p ++ [x]) s)).
Qed.

Lemma number_children_count fuel street p l s c :
  NoDup l → l ⊆ digits →
  returned (for_each l (λ x, explore_house_numbers fuel street (p ++ [x])) s)
  = true →
  ∃ new,
    requests (state_of (for_each l (λ x,
                explore_house_numbers fuel street (p ++ [x])) s))
    = requests s ++ new
    ∧ count (number_params street (p ++ [c])) new
      = if decide (c ∈ l
                   ∧ query_key street (p ++ [c]) ∉ completed_number_queries s)
        then 1%nat else 0%nat.
Proof.
  revert s. induction l as [|x l IH]; intros s Hnd Hl Hret.
  - exists []. split; [by rewrite app_nil_r|].
    rewrite decide_False; [done|]. intros [[]%not_elem_of_nil _].
  - apply NoDup_cons in Hnd as [Hx Hnd]. simpl for_each in *.
    rewrite bind_run in *.
    assert (Hl' : l ⊆ digits) by (intros y Hy; apply Hl; by right).
    pose proof (sibling_keeps_key fuel street p x c s) as Hkey.
    destruct (decide (query_key street (p ++ [x]) ∈ completed_number_queries s))
      as [Hin|Hout].
    + (* the guard skips the child *)
      pose proof (explore_house_numbers_skip fuel street (p ++ [x]) s) as Hs.
      destruct (explore_house_numbers fuel street (p ++ [x]) s) as [[] s1|];
        [|done].
      simpl in Hs, Hkey. rewrite Hs in * by done.
      destruct (IH s Hnd Hl' Hret) as (new & E2 & Hc).
      exists new. split; [done|]. rewrite Hc.
      destruct (decide (x = c)) as [->|Hne].
      * rewrite !decide_False; [done| |]; by intros [? ?].
      * destruct (decide (c ∈ l ∧ _)) as [[? ?]|Hn].
        -- rewrite decide_True; [done|]. split; [by right|done].
        -- rewrite decide_False; [done|].
           intros [[->|?]%elem_of_cons ?]; [done|]. by apply Hn.
    + destruct (explore_house_numbers_first fuel street (p ++ [x]) s)
        as (rest & E1 & F1); [|done|].
      { by destruct (explore_house_numbers fuel street (p ++ [x]) s). }
      destruct (explore_house_numbers fuel street (p ++ [x]) s) as [[] s1|];
        [|done].
      simpl in E1, Hkey. destruct (IH s1 Hnd Hl' Hret) as (new & E2 & Hc).
      exists (number_params street (p ++ [x]) :: rest ++ new).
      split; [by rewrite E2, E1, <- app_assoc|].
      rewrite count_cons, count_app, Hc, (count_none _ rest).
      * destruct (decide (x = c)) as [->|Hne].
        -- rewrite decide_True by done.
           rewrite (decide_False (P := c ∈ l ∧ _)) by by intros [? ?].
           rewrite decide_True; [done|]. split; [apply list_elem_of_here|done].
        -- rewrite decide_False
             by (intros E%number_params_inj%app_inv_head; congruence).
           destruct (decide (c ∈ l ∧ _)) as [[? Hk]|Hn].
           ++ rewrite decide_True; [done|]. split; [by right|].
              by rewrite <- Hkey.
           ++ rewrite decide_False; [done|].
              intros [[->|?]%elem_of_cons Hk]; [done|]. apply Hn.
              split; [done|]. by rewrite Hkey.
      * eapply Forall_impl; [exact F1|].
        intros r (q' & (c' & r' & _ & _ & ->) & ->) E.
        apply number_params_inj in E.
        eapply (child_ne_below p c x); [|exact E]. by exists c', r'.
Qed.

Lemma get_next_characters_NoDup prefix : NoDup (get_next_characters prefix).
Proof.
  assert (NoDup german_chars) as Hnd.
  { apply (bool_decide_unpack (NoDup german_chars)). by vm_compute. }
  unfold get_next_characters. destruct (last prefix); [|done].
  destruct (dict_get _ _); [|done]. by apply NoDup_filter.
Qed.

(** C3 (amended). When the query for a prefix is answered with exactly 12
    items and the call returns, the prefix is not marked complete by it,
    and after the query for the prefix itself: a street exploration sends
    exactly one query for the prefix extended by each character of
    [get_next_characters]; a house-number exploration sends exactly one
    query for the prefix extended by each digit whose key is not yet in
    the completed set, and none for a digit whose key is. *)
Theorem C3_expansion_queries_each_open_child
    fuel prefix street number_prefix s :
  (length (fetched (fetch_streets prefix s)) = 12%nat →
   returned (explore_prefix (S fuel) prefix s) = true →
   ∃ new,
     requests (state_of (explore_prefix (S fuel) prefix s))
     = requests s ++ GetStreets prefix :: new
     ∧ (∀ c, c ∈ get_next_characters prefix →
             count (GetStreets (prefix ++ [c])) new = 1%nat)
     ∧ (prefix ∈ completed_queries
                   (state_of (explore_prefix (S fuel) prefix s)) →
        prefix ∈ completed_queries s))
  ∧ (length (fetched (fetch_house_numbers street number_prefix s)) = 12%nat →
     query_key street number_prefix ∉ completed_number_queries s →
     returned (explore_house_numbers (S fuel) street number_prefix s) = true →
     ∃ new,
       requests (state_of (explore_house_numbers (S fuel) street number_prefix s))
       = requests s ++ number_params street number_prefix :: new
       ∧ (∀ d, d ∈ utf8 "0123456789" →
               count (number_params street (number_prefix ++ [d])) new
               = if decide (query_key street (number_prefix ++ [d])
                              ∈ completed_number_queries s)
                 then 0%nat else 1%nat)
       ∧ query_key street number_prefix
           ∉ completed_number_queries
               (state_of (explore_house_numbers (S fuel) street number_prefix s))).
Proof.
  rewrite fetched_streets, fetched_house_numbers. split.
  - intros Heq Hret.
    pose proof (truncated_prefix_not_marked fuel prefix s Heq) as Hmark.
    revert Hret Hmark. rewrite explore_prefix_eq. cbv zeta.
    rewrite Heq. change (12 =? 12)%nat with true. cbv iota.
    intros Hret Hmark.
    destruct (street_children_count fuel prefix (get_next_characters prefix)
                (after_streets prefix s) 0 (get_next_characters_NoDup prefix) Hret)
      as (new & E & _).
    exists new. split; [by rewrite E, after_streets_requests, <- app_assoc|].
    split; [|done]. intros c Hc.
    destruct (street_children_count fuel prefix (get_next_characters prefix)
                (after_streets prefix s) c (get_next_characters_NoDup prefix) Hret)
      as (new' & E' & Hcount).
    rewrite E in E'. apply app_inv_head in E'. subst new'.
    by rewrite Hcount, decide_True.
  - intros Heq Hk Hret.
    pose proof (truncated_number_prefix_not_marked fuel street number_prefix s Heq)
      as Hmark.
    revert Hret Hmark.
    rewrite explore_house_numbers_eq, decide_False by done. cbv zeta.
    rewrite Heq. change (12 =? 12)%nat with true. cbv iota.
    intros Hret Hmark.
    assert (Hnd : NoDup digits).
    { apply (bool_decide_unpack (NoDup digits)). by vm_compute. }
    destruct (number_children_count fuel street number_prefix digits
                (after_numbers street number_prefix s) 0 Hnd (λ _ H, H) Hret)
      as (new & E & _).
    exists new. split; [by rewrite E, after_numbers_requests, <- app_assoc|].
    split; [|by intros ?%Hmark]. intros d Hd.
    destruct (number_children_count fuel street number_prefix digits
                (after_numbers street number_prefix s) d Hnd (λ _ H, H) Hret)
      as (new' & E' & Hcount).
    rewrite E in E'. apply app_inv_head in E'. subst new'.
    rewrite Hcount, after_numbers_completed_number_queries.
    destruct (decide (query_key _ _ ∈ _)).
    + rewrite decide_False; [done|]. by intros [_ ?].
    + by rewrite decide_True.
Qed.

(** ** Composing postconditions *)

Lemma post_ret {A} R `{!Reflexive R} (a : A) : post R (mret a).
Proof. intros s. reflexivity. Qed.

Lemma post_raise {A} R `{!Reflexive R} h : post R (raise (A := A) h).
Proof. intros s. reflexivity. Qed.

Lemma post_get {A} R `{!Reflexive R} (f : fetcher → A) : post R (get f).
Proof. intros s. reflexivity. Qed.

Lemma post_bind {A B} R `{!Transitive R} (m : M A) (f : A → M B) :
  post R m → (∀ a, post R (f a)) → post R (m ≫= f).
Proof.
  intros Hm Hf s. rewrite bind_run. specialize (Hm s).
  destruct (m s) as [a s1|h s1]; simpl in *; [|done].
  etrans; [exact Hm|apply Hf].
Qed.

Lemma post_for_each {A} R `{!PreOrder R} (l : list A) (body : A → M unit) :
  (∀ x, x ∈ l → post R (body x)) → post R (for_each l body).
Proof. intros Hb s. apply (for_each_post R). intros x s0 Hx. by apply Hb. Qed.

(** Splits a method body into its statements, down to the calls and the
    attribute updates that the context or [auto] know about. *)
Ltac post_steps :=
  repeat first
    [ solve [auto]
    | apply post_for_each; [apply _|intros ? ?]
    | apply post_ret; apply _
    | apply post_get; apply _
    | apply post_raise; apply _
    | apply post_bind; [apply _| |intros ?]
    | match goal with
      | |- post _ (match ?x with _ => _ end) => destruct x
      end ].

(** ** Straight-line methods *)

Lemma save_results_eq s :
  ∃ s', save_results s = Done () s'
        ∧ street_names s' = street_names s
        ∧ completed_queries s' = completed_queries s
        ∧ street_numbers s' = street_numbers s
        ∧ completed_number_queries s' = completed_number_queries s
        ∧ requests s' = requests s
        ∧ stdout s `prefix_of` stdout s'
        ∧ disk s'
          = {| street_names_json :=
                 Some (sorted str_lt (elements (street_names s)));
               completed_queries_json :=
                 Some (sorted str_lt (elements (completed_queries s)));
               street_numbers_json :=
                 Some (sort_numbers <$> street_numbers s) |}.
Proof.
  eexists. unfold save_results. run. split; [reflexivity|]. fields.
  split_and!; try reflexivity.
  rewrite <- !app_assoc. by apply prefix_app_r.
Qed.

Lemma load_existing_data_eq s :
  ∃ s', load_existing_data s = Done () s'
        ∧ street_names s'
          = from_option list_to_set (street_names s)
              (street_names_json (disk s))
        ∧ completed_queries s'
          = from_option list_to_set (completed_queries s)
              (completed_queries_json (disk s))
        ∧ street_numbers s'
          = default (street_numbers s) (street_numbers_json (disk s))
        ∧ completed_number_queries s' = completed_number_queries s
        ∧ requests s' = requests s
        ∧ stdout s `prefix_of` stdout s'
        ∧ disk s' = disk s.
Proof.
  unfold load_existing_data. run.
  destruct (street_names_json (disk s)), (completed_queries_json (disk s)),
    (street_numbers_json (disk s));
    eexists; (split; [reflexivity|]); fields; split_and!; try reflexivity;
    rewrite <- ?app_assoc; by apply prefix_app_r.
Qed.

Lemma collect_house_numbers_for_street_known fuel street l s :
  street_numbers s !! street = Some l →
  collect_house_numbers_for_street fuel street s
  = Done () (printed (AlreadyProcessed street) s).
Proof. intros Hl. unfold collect_house_numbers_for_street. run. by rewrite Hl. Qed.

Lemma collect_house_numbers_for_street_new fuel street s :
  street_numbers s !! street = None →
  collect_house_numbers_for_street fuel street s
  = for_each (utf8 "123456789")
      (λ digit, explore_house_numbers fuel street [digit]) s.
Proof. intros Hl. unfold collect_house_numbers_for_street. run. by rewrite Hl. Qed.

(** ** Nothing is forgotten, by any call that does not reload *)

Lemma grows_printed ln s : grows s (printed ln s).
Proof.
  split; try done; [|by apply prefix_app_r].
  intros street l Hl. exists []. by rewrite app_nil_r.
Qed.

Lemma grows_after_fetch r ln s : grows s (after_fetch r ln s).
Proof.
  split.
  - by rewrite after_fetch_street_names.
  - by rewrite after_fetch_completed_queries.
  - intros street l Hl. exists []. by rewrite after_fetch_street_numbers, app_nil_r.
  - by rewrite after_fetch_completed_number_queries.
  - rewrite after_fetch_requests. by apply prefix_app_r.
  - rewrite after_fetch_stdout. by apply prefix_app_r.
Qed.

Lemma grows_save_results : post grows save_results.
Proof.
  intros s. destruct (save_results_eq s)
    as (s' & -> & E1 & E2 & E3 & E4 & E5 & E6 & _).
  simpl. split; rewrite ?E1, ?E2, ?E3, ?E4, ?E5; try done.
  intros street l ->. exists []. by rewrite app_nil_r.
Qed.

Lemma grows_collect_house_numbers_for_street fuel street :
  post grows (collect_house_numbers_for_street fuel street).
Proof.
  intros s. destruct (street_numbers s !! street) as [l|] eqn:Hl.
  - erewrite collect_house_numbers_for_street_known by done.
    apply grows_printed.
  - rewrite collect_house_numbers_for_street_new by done.
    apply (for_each_post grows). intros. apply grows_explore_house_numbers.
Qed.

Lemma grows_run fuel c : reloads c = false → post grows (run fuel c).
Proof.
  intros Hc s. destruct c; try done; simpl run.
  - rewrite bind_run, fetch_streets_eq. apply grows_after_fetch.
  - rewrite bind_run, fetch_house_numbers_eq. apply grows_after_fetch.
  - apply grows_explore_house_numbers.
  - apply grows_collect_house_numbers_for_street.
  - apply grows_explore_prefix.
  - apply grows_explore_prefix.
  - apply grows_save_results.
Qed.

Lemma grows_run_all calls s :
  Forall (λ c, reloads c.2 = false) calls → grows s (run_all calls s).
Proof.
  intros Hcalls. revert s.
  induction Hcalls as [|[fuel c] calls Hc _ IH]; intros s; [reflexivity|].
  simpl. etrans; [|apply IH]. by apply grows_run.
Qed.

(** C7. Along any sequence of calls of the explorers (and of every other
    method but the two that reload the files) no street name and no house
    number is lost: the set of street names grows, its size does not
    shrink, and the list of every street is extended at its end. *)
Theorem C7_discovered_only_grows calls s :
  Forall (λ c, reloads c.2 = false) calls →
  street_names s ⊆ street_names (run_all calls s)
  ∧ (size (street_names s) ≤ size (street_names (run_all calls s)))%nat
  ∧ ∀ street l,
      street_numbers s !! street = Some l →
      ∃ more, street_numbers (run_all calls s) !! street = Some (l ++ more)
              ∧ (length l ≤ length (l ++ more))%nat.
Proof.
  intros Hcalls. destruct (grows_run_all calls s Hcalls) as [H1 _ H3 _ _ _].
  split; [done|]. split; [by apply subseteq_size|].
  intros street l Hl. destruct (H3 street l Hl) as [more Hm].
  exists more. split; [done|]. rewrite length_app. lia.
Qed.

(** ** Sorting *)

Lemma insert_sorted_perm {A} (lt : A → A → bool) x l :
  insert_sorted lt x l ≡ₚ x :: l.
Proof.
  induction l as [|y l IH]; simpl; [done|].
  destruct (lt y x); [|done]. rewrite IH. apply Permutation_swap.
Qed.

Lemma sorted_perm {A} (lt : A → A → bool) l : sorted lt l ≡ₚ l.
Proof.
  induction l as [|x l IH]; simpl; [done|].
  by rewrite insert_sorted_perm, IH.
Qed.

Lemma insert_sorted_Sorted {A} (lt : A → A → bool) x l :
  (∀ a b, lt a b = true → lt b a = false) →
  Sorted (λ a b, lt b a = false) l →
  Sorted (λ a b, lt b a = false) (insert_sorted lt x l).
Proof.
  intros Hasym. induction 1 as [|y l Hl IH Hy]; simpl.
  - by repeat constructor.
  - destruct (lt y x) eqn:Hyx.
    + constructor; [done|].
      destruct Hy as [|z l Hz]; simpl in *.
      * constructor. by apply Hasym.
      * destruct (lt z x); constructor; [done|]. by apply Hasym.
    + by repeat constructor.
Qed.

Lemma sorted_Sorted {A} (lt : A → A → bool) l :
  (∀ a b, lt a b = true → lt b a = false) →
  Sorted (λ a b, lt b a = false) (sorted lt l).
Proof.
  intros Hasym. induction l as [|x l IH]; simpl; [constructor|].
  by apply insert_sorted_Sorted.
Qed.

Lemma Sorted_Forall {A} (R : relation A) (P : A → Prop) l :
  Sorted R l → Forall P l → Sorted (λ a b, R a b ∧ P a ∧ P b) l.
Proof.
  induction 1 as [|x l Hl IH Hx]; intros HP; [constructor|].
  apply Forall_cons in HP as [Px HP]. constructor; [by apply IH|].
  destruct Hx as [|y l Hy]; constructor.
  apply Forall_cons in HP as [Py _]. done.
Qed.

Lemma str_lt_asym a b : str_lt a b = true → str_lt b a = false.
Proof.
  revert b. induction a as [|x a IH]; intros [|y b]; simpl; try done.
  destruct (N.ltb_spec x y), (N.ltb_spec y x); try done; try lia.
  apply IH.
Qed.

Lemma key_lt_asym k1 k2 : key_lt k1 k2 = true → key_lt k2 k1 = false.
Proof.
  unfold key_lt.
  destruct (Z.ltb_spec k1.1 k2.1), (Z.ltb_spec k2.1 k1.1); try done; try lia.
  apply str_lt_asym.
Qed.

Lemma key_le_spec n1 x1 n2 x2 :
  key_le (n1, x1) (n2, x2) ↔ (n1 < n2)%Z ∨ (n1 = n2 ∧ str_le x1 x2).
Proof.
  unfold key_le, key_lt, str_le. simpl.
  destruct (Z.ltb_spec n2 n1), (Z.ltb_spec n1 n2); try lia.
  split.
  - intros ?. right. split; [lia|done].
  - intros [?|[_ ?]]; [lia|done].
Qed.

Lemma sorted_names_spec (X : gset str) :
  Sorted str_le (sorted str_lt (elements X))
  ∧ NoDup (sorted str_lt (elements X))
  ∧ ∀ x, x ∈ sorted str_lt (elements X) ↔ x ∈ X.
Proof.
  split; [apply sorted_Sorted, str_lt_asym|]. split.
  - rewrite sorted_perm. apply NoDup_elements.
  - intros x. by rewrite sorted_perm, elem_of_elements.
Qed.

Lemma sort_numbers_perm numbers : sort_numbers numbers ≡ₚ numbers.
Proof.
  unfold sort_numbers. destruct (mapM number_key numbers) as [keys|] eqn:E.
  - unfold sorted_with_keys. rewrite sorted_perm, snd_zip; [done|].
    apply mapM_Some_1, Forall2_length in E. lia.
  - apply sorted_perm.
Qed.

Lemma sort_numbers_by_key numbers :
  Forall (λ x, is_Some (number_key x)) numbers →
  Sorted number_le (sort_numbers numbers).
Proof.
  intros Hall. unfold sort_numbers.
  destruct (mapM number_key numbers) as [keys|] eqn:E.
  2:{ apply mapM_None_1 in E. apply Exists_exists in E as (x & Hx & Hn).
      rewrite Forall_forall in Hall. destruct (Hall x Hx) as [k Hk]. congruence. }
  apply mapM_Some_1 in E. unfold sorted_with_keys.
  assert (Forall (λ a : (Z * str) * str, number_key a.2 = Some a.1)
            (sorted (λ a b, key_lt a.1 b.1) (zip keys numbers))) as Hkeys.
  { rewrite sorted_perm. clear Hall.
    induction E as [|x k l ks Hx _ IH]; simpl; [constructor|].
    by constructor. }
  set (R := λ a b : (Z * str) * str, key_lt b.1 a.1 = false).
  apply (Sorted_fmap snd
           (λ a b, R a b ∧ number_key a.2 = Some a.1
                   ∧ number_key b.2 = Some b.1) number_le).
  - intros a b (Hab & Ha & Hb). by exists a.1, b.1.
  - apply (Sorted_Forall R (λ a, number_key a.2 = Some a.1)); [|exact Hkeys].
    apply (sorted_Sorted (λ a b : (Z * str) * str, key_lt a.1 b.1)).
    intros a b. apply key_lt_asym.
Qed.

Lemma sort_numbers_fallback numbers :
  Exists (λ x, number_key x = None) numbers →
  sort_numbers numbers = sorted str_lt numbers.
Proof.
  intros Hex. unfold sort_numbers. by rewrite (mapM_None_2 _ _ Hex).
Qed.

(** ** Postconditions of [collect_house_numbers_for_street] and [main] *)

Lemma collect_house_numbers_for_street_post R `{!PreOrder R} fuel street :
  (∀ ln, post R (print ln)) →
  (∀ d, d ∈ utf8 "123456789" → post R (explore_house_numbers fuel street [d])) →
  post R (collect_house_numbers_for_street fuel street).
Proof.
  intros Hprint Hexplore. unfold collect_house_numbers_for_street.
  post_steps; auto.
Qed.

(** What [main] does after [load_existing_data]. *)
Lemma main_post R `{!PreOrder R} fuel s :
  (∀ ln, post R (print ln)) →
  post R save_results →
  (∀ letter, letter ∈ utf8 "ABCDEFGHIJKLMNOPQRSTUVWXYZÄÖÜ" →
             post R (explore_prefix fuel [letter])) →
  (∀ street, post R (collect_house_numbers_for_street fuel street)) →
  R (state_of (load_existing_data s)) (state_of (main fuel s)).
Proof.
  intros Hprint Hsave Hexplore Hcollect. unfold main. rewrite bind_run.
  destruct (load_existing_data_eq s) as (s1 & -> & _). simpl state_of at 1.
  revert s1.
  match goal with |- ∀ s1, R s1 (state_of (?m s1)) => change (post R m) end.
  unfold collect_streets_starting_with.
  post_steps; auto.
Qed.

(** ** Invariants *)

Global Instance keeps_preorder I : PreOrder (keeps I).
Proof.
  split.
  - intros s H. exact H.
  - intros s1 s2 s3 H1 H2 H. by apply H2, H1.
Qed.

(** *** No duplicates *)

Lemma no_duplicates_same s s' :
  street_numbers s' = street_numbers s → disk s' = disk s →
  keeps no_duplicates s s'.
Proof. intros E1 E2 [H1 H2]. split; rewrite ?E1, ?E2; done. Qed.

Lemma add_numbers_NoDup l numbers : NoDup l → NoDup (add_numbers l numbers).
Proof.
  revert l. induction numbers as [|x r IH]; intros l Hl; simpl; [done|].
  destruct (decide (x ∈ l)); apply IH; [done|].
  apply NoDup_app. split; [done|]. split; [|apply NoDup_singleton].
  intros y Hy ->%list_elem_of_singleton. done.
Qed.

Lemma no_duplicates_after_numbers street p s :
  keeps no_duplicates s (after_numbers street p s).
Proof.
  intros [H1 H2]. split.
  - intros street' l. rewrite after_numbers_street_numbers.
    destruct (decide (street = street')) as [<-|Hne].
    + rewrite lookup_insert_eq. intros [= <-]. apply add_numbers_NoDup.
      destruct (street_numbers s !! street) as [l0|] eqn:E; simpl.
      * by eapply H1.
      * apply NoDup_nil_2.
    + rewrite lookup_insert_ne by done. apply H1.
  - rewrite after_numbers_disk. apply H2.
Qed.

Lemma no_duplicates_explore_house_numbers fuel street p :
  post (keeps no_duplicates) (explore_house_numbers fuel street p).
Proof.
  revert p. induction fuel as [|fuel IH]; intros p s.
  - reflexivity.
  - rewrite explore_house_numbers_eq.
    destruct (decide _); [reflexivity|]. cbv zeta.
    etrans; [apply no_duplicates_after_numbers|].
    destruct (_ =? 12)%nat.
    + apply (for_each_post (keeps no_duplicates)). intros. apply IH.
    + by apply no_duplicates_same.
Qed.

Lemma no_duplicates_explore_prefix fuel p :
  post (keeps no_duplicates) (explore_prefix fuel p).
Proof.
  intros s. destruct (street_tree_explore_prefix fuel p s).
  by apply no_duplicates_same.
Qed.

Lemma no_duplicates_print ln : post (keeps no_duplicates) (print ln).
Proof. intros s. by apply no_duplicates_same. Qed.

Lemma no_duplicates_save_results : post (keeps no_duplicates) save_results.
Proof.
  intros s [H1 H2].
  destruct (save_results_eq s) as (s' & -> & _ & _ & E3 & _ & _ & _ & E7).
  simpl. split; [by rewrite E3|].
  rewrite E7. simpl. intros m street l [= <-].
  rewrite lookup_fmap. destruct (street_numbers s !! street) as [l0|] eqn:E;
    [|done].
  intros [= <-]. rewrite sort_numbers_perm. by eapply H1.
Qed.

Lemma no_duplicates_load_existing_data :
  post (keeps no_duplicates) load_existing_data.
Proof.
  intros s [H1 H2].
  destruct (load_existing_data_eq s)
    as (s' & -> & _ & _ & E3 & _ & _ & _ & E7).
  simpl. split; [|by rewrite E7].
  rewrite E3. destruct (street_numbers_json (disk s)) as [m|] eqn:E; simpl.
  - intros street l. by apply H2.
  - done.
Qed.

Lemma no_duplicates_collect fuel street :
  post (keeps no_duplicates) (collect_house_numbers_for_street fuel street).
Proof.
  apply collect_house_numbers_for_street_post; [apply _|..].
  - apply no_duplicates_print.
  - intros. apply no_duplicates_explore_house_numbers.
Qed.

(** C10. Every method and [main] keep the lists of house numbers free of
    duplicates, in [street_numbers] and in the file written from it and
    read back into it. *)
Theorem C10_house_numbers_stay_distinct fuel c s :
  no_duplicates s → no_duplicates (state_of (run fuel c s)).
Proof.
  revert s. change (post (keeps no_duplicates) (run fuel c)).
  destruct c; simpl run.
  - intros s. rewrite bind_run, fetch_streets_eq.
    apply no_duplicates_same;
      [apply after_fetch_street_numbers|apply after_fetch_disk].
  - intros s. rewrite bind_run, fetch_house_numbers_eq.
    apply no_duplicates_same;
      [apply after_fetch_street_numbers|apply after_fetch_disk].
  - apply no_duplicates_explore_house_numbers.
  - apply no_duplicates_collect.
  - apply no_duplicates_explore_prefix.
  - apply no_duplicates_explore_prefix.
  - apply no_duplicates_load_existing_data.
  - apply no_duplicates_save_results.
  - intros s. etrans; [apply no_duplicates_load_existing_data|].
    apply main_post; [apply _|..].
    + apply no_duplicates_print.
    + apply no_duplicates_save_results.
    + intros. apply no_duplicates_explore_prefix.
    + apply no_duplicates_collect.
Qed.

(** *** Completed keys belong to known streets *)

Lemma query_key_street_inj street street' p p' :
  Forall (λ c, c ∈ digits) p → Forall (λ c, c ∈ digits) p' →
  query_key street p = query_key street' p' → street = street'.
Proof.
  assert (Hd : ∀ q, Forall (λ c, c ∈ digits) q → 35 ∉ q).
  { intros q Hq Hin. rewrite Forall_forall in Hq. specialize (Hq _ Hin).
    revert Hq. apply (bool_decide_unpack (35 ∉ digits)). by vm_compute. }
  intros Hp%Hd Hp'%Hd. unfold query_key.
  change (utf8 "#" ++ p) with (35 :: p). change (utf8 "#" ++ p') with (35 :: p').
  revert street'. induction street as [|x a IH]; intros [|y b]; simpl.
  - done.
  - intros [= <- ->]. exfalso. apply Hp, elem_of_app. right. by left.
  - intros [= -> <-]. exfalso. apply Hp', elem_of_app. right. by left.
  - intros [= <- E]. f_equal. by apply IH.
Qed.

Lemma completed_keys_known_same s s' :
  street_numbers s' = street_numbers s →
  completed_number_queries s' = completed_number_queries s →
  keeps completed_keys_known s s'.
Proof. intros E1 E2 H street p. rewrite E1, E2. apply H. Qed.

Lemma explore_house_numbers_enters fuel street p s :
  query_key street p ∉ completed_number_queries s →
  is_Some (street_numbers
             (state_of (explore_house_numbers (S fuel) street p s)) !! street).
Proof.
  intros Hk.
  assert (is_Some (street_numbers (after_numbers street p s) !! street)) as [l Hl].
  { rewrite after_numbers_street_numbers, lookup_insert_eq. by eexists. }
  rewrite explore_house_numbers_eq, decide_False by done. cbv zeta.
  destruct (_ =? 12)%nat.
  - destruct (grows_street_numbers _ _
      (for_each_post grows digits
         (λ digit, explore_house_numbers fuel street (p ++ [digit]))
         (after_numbers street p s)
         (λ x s0 _, grows_explore_house_numbers fuel street (p ++ [x]) s0))
      street l Hl) as [more Hm].
    by eexists.
  - by eexists.
Qed.

Lemma completed_keys_known_explore_house_numbers fuel street p s :
  Forall (λ c, c ∈ digits) p →
  keeps completed_keys_known s
    (state_of (explore_house_numbers fuel street p s)).
Proof.
  intros Hp Hs. destruct fuel as [|fuel]; [done|].
  destruct (decide (query_key street p ∈ completed_number_queries s)) as [Hk|Hk].
  { by rewrite explore_house_numbers_completed. }
  intros street' p' Hp' Hk'.
  destruct (number_tree_completed _ _ _ _
    (number_tree_explore_house_numbers (S fuel) street p s) _ Hk')
    as [Hold|(q & (r & Hr & ->) & E)].
  - destruct (Hs street' p' Hp' Hold) as [l Hl].
    destruct (grows_street_numbers _ _
      (grows_explore_house_numbers (S fuel) street p s) street' l Hl)
      as [more Hm].
    by eexists.
  - apply query_key_street_inj in E as ->; [|done|by apply Forall_app].
    by apply explore_house_numbers_enters.
Qed.

Lemma completed_keys_known_collect fuel street :
  post (keeps completed_keys_known)
    (collect_house_numbers_for_street fuel street).
Proof.
  apply collect_house_numbers_for_street_post; [apply _|..].
  - intros ln s. by apply completed_keys_known_same.
  - intros d Hd s. apply completed_keys_known_explore_house_numbers.
    constructor; [|done].
    assert (Hsub : utf8 "123456789" ⊆ digits).
    { apply (bool_decide_unpack (utf8 "123456789" ⊆ digits)). by vm_compute. }
    by apply Hsub.
Qed.

Lemma completed_keys_known_explore_prefix fuel p :
  post (keeps completed_keys_known) (explore_prefix fuel p).
Proof.
  intros s. destruct (street_tree_explore_prefix fuel p s).
  by apply completed_keys_known_same.
Qed.

Lemma completed_keys_known_save_results :
  post (keeps completed_keys_known) save_results.
Proof.
  intros s. destruct (save_results_eq s) as (s' & -> & _ & _ & E3 & E4 & _).
  by apply completed_keys_known_same.
Qed.

(** The invariant holds when nothing is completed, as in a new fetcher and
    after the files are loaded into it; every call but the two that reload
    keeps it, and [main] keeps it as well. *)
Lemma completed_keys_known_empty s :
  completed_number_queries s = ∅ → completed_keys_known s.
Proof. intros E street p _. rewrite E. by intros ?%not_elem_of_empty. Qed.

Lemma completed_keys_known_run fuel c s :
  reloads c = false → digit_prefix c →
  completed_keys_known s → completed_keys_known (state_of (run fuel c s)).
Proof.
  intros Hc Hp. revert s.
  change (post (keeps completed_keys_known) (run fuel c)).
  destruct c; try done; simpl run.
  - intros s. rewrite bind_run, fetch_streets_eq.
    apply completed_keys_known_same;
      [apply after_fetch_street_numbers
      |apply after_fetch_completed_number_queries].
  - intros s. rewrite bind_run, fetch_house_numbers_eq.
    apply completed_keys_known_same;
      [apply after_fetch_street_numbers
      |apply after_fetch_completed_number_queries].
  - intros s. by apply completed_keys_known_explore_house_numbers.
  - apply completed_keys_known_collect.
  - apply completed_keys_known_explore_prefix.
  - apply completed_keys_known_explore_prefix.
  - apply completed_keys_known_save_results.
Qed.

Lemma completed_keys_known_main fuel s :
  completed_number_queries s = ∅ →
  completed_keys_known (state_of (main fuel s)).
Proof.
  intros E.
  apply (main_post (keeps completed_keys_known) fuel s).
  - intros ln s0. by apply completed_keys_known_same.
  - apply completed_keys_known_save_results.
  - intros. apply completed_keys_known_explore_prefix.
  - apply completed_keys_known_collect.
  - apply completed_keys_known_empty.
    destruct (load_existing_data_eq s) as (s' & -> & _ & _ & _ & E4 & _).
    simpl. by rewrite E4.
Qed.

(** C9. In a fetcher whose completed keys belong to known streets (every
    fetcher of a run is one), a call of [explore_house_numbers] on a digit
    prefix leaves the street as a key of [street_numbers], whatever the
    query returned and however the call ended; from then on, through any
    further calls that do not reload, [collect_house_numbers_for_street]
    returns for that street without sending a request. *)
Theorem C9_explored_street_is_skipped fuel street number_prefix s :
  completed_keys_known s →
  Forall (λ c, c ∈ utf8 "0123456789") number_prefix →
  let s' := state_of (explore_house_numbers (S fuel) street number_prefix s) in
  is_Some (street_numbers s' !! street)
  ∧ ∀ calls fuel',
      Forall (λ c, reloads c.2 = false) calls →
      ∃ s'', collect_house_numbers_for_street fuel' street (run_all calls s')
             = Done () s''
             ∧ requests s'' = requests (run_all calls s').
Proof.
  intros Hs Hp s'.
  assert (is_Some (street_numbers s' !! street)) as [l Hl].
  { destruct (decide (query_key street number_prefix
                        ∈ completed_number_queries s)) as [Hk|Hk].
    - subst s'. rewrite explore_house_numbers_completed by done.
      by apply (Hs street number_prefix).
    - by apply explore_house_numbers_enters. }
  split; [by eexists|]. intros calls fuel' Hcalls.
  destruct (grows_street_numbers _ _ (grows_run_all calls s' Hcalls) street l Hl)
    as [more Hm].
  eexists. by erewrite collect_house_numbers_for_street_known.
Qed.

(** ** Seeds *)

Lemma ensure_bind_r {A B} (I : fetcher → Prop) (m : M A) (f : A → M B) s a s1 :
  m s = Done a s1 →
  (returned (f a s1) = true → I (state_of (f a s1))) →
  returned ((m ≫= f) s) = true → I (state_of ((m ≫= f) s)).
Proof. intros E H. rewrite bind_run, E. exact H. Qed.

Lemma ensure_bind_l {A B} (I : fetcher → Prop) (m : M A) (f : A → M B) s :
  (returned (m s) = true → I (state_of (m s))) →
  (∀ a, post (keeps I) (f a)) →
  returned ((m ≫= f) s) = true → I (state_of ((m ≫= f) s)).
Proof.
  intros Hm Hf. rewrite bind_run. destruct (m s) as [a s1|]; [|done].
  intros Hr. apply (Hf a s1). by apply Hm.
Qed.

Lemma ensure_for_each {A} (I : fetcher → Prop) (l : list A)
    (body : A → M unit) x s :
  x ∈ l →
  (∀ s0, returned (body x s0) = true → I (state_of (body x s0))) →
  (∀ y, post (keeps I) (body y)) →
  returned (for_each l body s) = true → I (state_of (for_each l body s)).
Proof.
  intros Hx Hbody Hkeep. revert s.
  induction l as [|y l IH]; intros s; [by apply not_elem_of_nil in Hx|].
  simpl for_each. apply elem_of_cons in Hx as [<-|Hx].
  - apply ensure_bind_l; [apply Hbody|]. intros _.
    apply post_for_each; [apply _|]. intros. apply Hkeep.
  - rewrite bind_run. destruct (body y s) as [[] s1|]; [|done]. by apply IH.
Qed.

Lemma keeps_request r s s' :
  requests s `prefix_of` requests s' → keeps (λ s, r ∈ requests s) s s'.
Proof. intros [k E] H. rewrite E. apply elem_of_app. by left. Qed.

Lemma sends_collect_house_numbers_for_street fuel street :
  post (sends (λ r, ∃ d q, d ∈ utf8 "123456789"
                           ∧ r = GetNumbers street (Some (d :: q))))
    (collect_house_numbers_for_street fuel street).
Proof.
  apply collect_house_numbers_for_street_post; [apply _|..].
  - intros ln s. by apply sends_same.
  - intros d Hd s.
    eapply sends_weaken;
      [|apply (number_tree_requests _ _ _ _
                 (number_tree_explore_house_numbers fuel street [d] s))].
    intros r (q & (q' & _ & ->) & ->). by exists d, q'.
Qed.

(** C8. Every house-number request of a street's collection carries a
    prefix that starts with one of the digits 1 to 9 (so never the empty
    prefix), and a collection that returns for a street not yet known has
    sent exactly one request for each of these nine digits alone.  Every
    request of [main] is a street request whose prefix starts with one of
    the 29 letters A to Z, Ä, Ö, Ü or such a house-number request, and a
    [main] that finds no street names loaded and returns has sent the
    request for each of the 29 letters alone. *)
Theorem C8_seeds fuel street s :
  let letters := utf8 "ABCDEFGHIJKLMNOPQRSTUVWXYZÄÖÜ" in
  let nonzero := utf8 "123456789" in
  sends (λ r, ∃ d q, d ∈ nonzero ∧ r = GetNumbers street (Some (d :: q)))
    s (state_of (collect_house_numbers_for_street fuel street s))
  ∧ (completed_keys_known s →
     street_numbers s !! street = None →
     returned (collect_house_numbers_for_street fuel street s) = true →
     ∃ new,
       requests (state_of (collect_house_numbers_for_street fuel street s))
       = requests s ++ new
       ∧ ∀ d, d ∈ nonzero → count (GetNumbers street (Some [d])) new = 1%nat)
  ∧ sends (λ r, (∃ letter q, letter ∈ letters ∧ r = GetStreets (letter :: q))
                ∨ (∃ street' d q,
                     d ∈ nonzero ∧ r = GetNumbers street' (Some (d :: q))))
      s (state_of (main fuel s))
  ∧ (street_names (state_of (load_existing_data s)) = ∅ →
     returned (main fuel s) = true →
     ∀ letter, letter ∈ letters →
               GetStreets [letter] ∈ requests (state_of (main fuel s))).
Proof.
  cbv zeta. split_and!.
  - apply sends_collect_house_numbers_for_street.
  - intros Hknown Hnew. rewrite collect_house_numbers_for_street_new by done.
    intros Hret.
    assert (Hnd : NoDup (utf8 "123456789")).
    { apply (bool_decide_unpack (NoDup (utf8 "123456789"))). by vm_compute. }
    assert (Hsub : utf8 "123456789" ⊆ digits).
    { apply (bool_decide_unpack (utf8 "123456789" ⊆ digits)). by vm_compute. }
    destruct (number_children_count fuel street [] (utf8 "123456789") s 0
                Hnd Hsub Hret) as (new & E & _).
    exists new. split; [exact E|]. intros d Hd.
    destruct (number_children_count fuel street [] (utf8 "123456789") s d
                Hnd Hsub Hret) as (new' & E' & Hcount).
    change (requests (state_of
              (for_each (utf8 "123456789")
                 (λ x, explore_house_numbers fuel street ([] ++ [x])) s)))
      with (requests (state_of
              (for_each (utf8 "123456789")
                 (λ x, explore_house_numbers fuel street [x]) s))) in E, E'.
    rewrite E in E'. apply app_inv_head in E'. subst new'.
    change (number_params street ([] ++ [d]))
      with (GetNumbers street (Some [d])) in Hcount.
    rewrite Hcount, decide_True; [done|]. split; [done|].
    intros Hk. destruct (Hknown street [d]) as [l Hl]; [|exact Hk|congruence].
    constructor; [by apply Hsub|done].
  - set (P := λ r, (∃ letter q, letter ∈ utf8 "ABCDEFGHIJKLMNOPQRSTUVWXYZÄÖÜ"
                                ∧ r = GetStreets (letter :: q))
                   ∨ (∃ street' d q, d ∈ utf8 "123456789"
                                     ∧ r = GetNumbers street' (Some (d :: q)))).
    transitivity (state_of (load_existing_data s)).
    { destruct (load_existing_data_eq s) as (s' & -> & _ & _ & _ & _ & E & _).
      by apply sends_same. }
    apply (main_post (sends P)).
    + intros ln s0. by apply sends_same.
    + intros s0.
      destruct (save_results_eq s0) as (s' & -> & _ & _ & _ & _ & E & _).
      by apply sends_same.
    + intros letter Hl s0.
      eapply sends_weaken;
        [|apply (street_tree_requests _ _ _
                   (street_tree_explore_prefix fuel [letter] s0))].
      intros r (q & (q' & ->) & ->). left. by exists letter, q'.
    + intros street' s0.
      eapply sends_weaken; [|apply sends_collect_house_numbers_for_street].
      intros r (d & q & Hd & ->). right. by exists street', d, q.
  - intros Hempty Hret letter Hletter. revert Hret.
    set (I := λ s0 : fetcher, GetStreets [letter] ∈ requests s0).
    change (returned (main fuel s) = true → I (state_of (main fuel s))).
    assert (Hprint : ∀ ln, post (keeps I) (print ln)).
    { intros ln s0. by apply keeps_request. }
    assert (Hsave : post (keeps I) save_results).
    { intros s0. apply keeps_request, grows_requests, grows_save_results. }
    assert (Hexplore : ∀ p, post (keeps I) (explore_prefix fuel p)).
    { intros p s0. apply keeps_request, grows_requests, grows_explore_prefix. }
    assert (Hcollect : ∀ street',
              post (keeps I) (collect_house_numbers_for_street fuel street')).
    { intros street' s0.
      apply keeps_request, grows_requests,
        grows_collect_house_numbers_for_street. }
    unfold main, collect_streets_starting_with.
    destruct (load_existing_data_eq s) as (s1 & Hload & _).
    rewrite Hload in Hempty. simpl in Hempty.
    eapply ensure_bind_r; [exact Hload|].
    eapply ensure_bind_r; [reflexivity|].
    rewrite Hempty, decide_True by done.
    apply ensure_bind_l; [|intros; post_steps].
    eapply ensure_bind_r; [reflexivity|].
    apply ensure_bind_l; [|intros; post_steps].
    apply (ensure_for_each I _ _ letter); [done| |intros; post_steps].
    intros s0.
    eapply ensure_bind_r; [reflexivity|].
    apply ensure_bind_l; [|intros; post_steps].
    intros Hret.
    destruct (explore_prefix_first fuel [letter] _ Hret) as (rest & E & _).
    unfold I. rewrite E. apply elem_of_app. right. by left.
Qed.

(** ** The next characters *)

Lemma impossible_after_keys k :
  is_Some (dict_get k impossible_after)
  ↔ k ∈ [utf8 "b"; utf8 "c"; utf8 "d"; utf8 "f"; utf8 "g"; utf8 "k";
         utf8 "p"; utf8 "t"; utf8 "x"; utf8 "q"].
Proof.
  split.
  - intros [v Hv]. revert Hv. unfold impossible_after. cbn [dict_get].
    repeat (destruct (decide _) as [<-|_];
            [intros _; apply (bool_decide_unpack _); by vm_compute|]).
    done.
  - intros Hk.
    repeat (apply elem_of_cons in Hk as [->|Hk]; [by vm_compute; eexists|]).
    by apply not_elem_of_nil in Hk.
Qed.

(** C5 (amended). [get_next_characters] decides on the lower-cased last
    character of the prefix.  It returns the 30 characters a to z, ä, ö, ü,
    ß when the prefix is empty or that character has no entry in the
    table; the table has entries exactly for b, c, d, f, g, k, p, t, x, q;
    for b the result is the alphabet without b, c, d, f, g, j, k, p, q, v,
    w, x, z; for x it is empty; for q it is u alone. *)
Theorem C5_next_characters_by_lowered_last_character prefix :
  german_chars = utf8 "abcdefghijklmnopqrstuvwxyzäöüß"
  ∧ length german_chars = 30%nat
  ∧ (∀ k, is_Some (dict_get k impossible_after)
          ↔ k ∈ [utf8 "b"; utf8 "c"; utf8 "d"; utf8 "f"; utf8 "g"; utf8 "k";
                 utf8 "p"; utf8 "t"; utf8 "x"; utf8 "q"])
  ∧ (prefix = [] → get_next_characters prefix = german_chars)
  ∧ (∀ c, last prefix = Some c →
          dict_get (lower c) impossible_after = None →
          get_next_characters prefix = german_chars)
  ∧ (∀ c, last prefix = Some c →
          lower c = utf8 "b" →
          get_next_characters prefix
          = filter (λ x, x ∉ utf8 "bcdfgjkpqvwxz") german_chars)
  ∧ (∀ c, last prefix = Some c →
          lower c = utf8 "x" → get_next_characters prefix = [])
  ∧ (∀ c, last prefix = Some c →
          lower c = utf8 "q" → get_next_characters prefix = utf8 "u").
Proof.
  split_and!.
  - reflexivity.
  - reflexivity.
  - apply impossible_after_keys.
  - intros ->. reflexivity.
  - intros c Hc Hnone. unfold get_next_characters. by rewrite Hc, Hnone.
  - intros c Hc Hb. unfold get_next_characters. rewrite Hc, Hb. reflexivity.
  - intros c Hc Hx. unfold get_next_characters. rewrite Hc, Hx.
    by vm_compute.
  - intros c Hc Hq. unfold get_next_characters. rewrite Hc, Hq.
    by vm_compute.
Qed.

(** * Further properties *)

(** ** The next characters, for any case table *)


(** X1. Whatever the prefix and the case table, the next characters are
    taken from the 30 characters of the alphabet, in the order of the
    alphabet and without repetition. *)
Theorem X1_next_characters_within_alphabet prefix :
  get_next_characters prefix `sublist_of` german_chars
  ∧ NoDup (get_next_characters prefix)
  ∧ (length (get_next_characters prefix) ≤ 30)%nat.
Proof.
  assert (Hsub : get_next_characters prefix `sublist_of` german_chars).
  { unfold get_next_characters. destruct (last prefix); [|done].
    destruct (dict_get _ _); [|done]. apply sublist_filter. }
  split; [done|]. split; [apply get_next_characters_NoDup|].
  by apply sublist_length in Hsub.
Qed.


(** ** Dead ends *)

(** X3. A prefix whose lower-cased last character is x has no children:
    its exploration returns after the one request for the prefix itself
    whatever the answer, and when the answer has 12 items the prefix is
    neither explored further nor marked complete. *)
Theorem X3_no_exploration_below_x fuel prefix c s :
  last prefix = Some c → lower c = utf8 "x" →
  ∃ s', explore_prefix (S fuel) prefix s = Done () s'
        ∧ requests s' = requests s ++ [GetStreets prefix]
        ∧ (length (fetched (fetch_streets prefix s)) = 12%nat →
           completed_queries s' = completed_queries s).
Proof.
  intros Hc Hx.
  assert (Hnone : get_next_characters prefix = []).
  { unfold get_next_characters. rewrite Hc, Hx. by vm_compute. }
  rewrite explore_prefix_eq, fetched_streets, Hnone. cbv zeta.
  destruct (_ =? 12)%nat eqn:E.
  - eexists. split; [reflexivity|]. split; [apply after_streets_requests|].
    intros _. apply after_streets_completed_queries.
  - eexists. split; [reflexivity|]. fields.
    split; [apply after_streets_requests|].
    intros E'. rewrite E' in E. done.
Qed.

(** ** What an exploration adds and what it leaves alone *)

Lemma elem_of_add_numbers l numbers y :
  y ∈ add_numbers l numbers ↔ y ∈ l ∨ y ∈ numbers.
Proof.
  revert l. induction numbers as [|x r IH]; intros l; simpl.
  - rewrite elem_of_nil. tauto.
  - rewrite elem_of_cons. destruct (decide (x ∈ l)); rewrite IH.
    + split; [tauto|]. intros [?|[->|?]]; auto.
    + rewrite elem_of_app, list_elem_of_singleton. tauto.
Qed.

(** X4. Every item that the query for the prefix returns is recorded,
    however the call ends afterwards: a street name in [street_names], a
    house number in the list of the street (when the guard lets the call
    through). *)
Theorem X4_explorers_record_every_answer fuel prefix street number_prefix s x :
  (x ∈ fetched (fetch_streets prefix s) →
   x ∈ street_names (state_of (explore_prefix (S fuel) prefix s)))
  ∧ (query_key street number_prefix ∉ completed_number_queries s →
     x ∈ fetched (fetch_house_numbers street number_prefix s) →
     ∃ l, street_numbers
            (state_of (explore_house_numbers (S fuel) street number_prefix s))
            !! street = Some l
          ∧ x ∈ l).
Proof.
  rewrite fetched_streets, fetched_house_numbers. split.
  - intros Hx.
    assert (x ∈ street_names (after_streets prefix s)) as Hin.
    { apply after_streets_street_names. by left. }
    rewrite explore_prefix_eq. cbv zeta. destruct (_ =? 12)%nat.
    + by apply (grows_street_names _ _
                  (for_each_post grows (get_next_characters prefix)
                     (λ char, explore_prefix fuel (prefix ++ [char]))
                     (after_streets prefix s)
                     (λ c s0 _, grows_explore_prefix fuel (prefix ++ [c]) s0))).
    + done.
  - intros Hk Hx.
    set (l0 := add_numbers (default [] (street_numbers s !! street))
                 (answer (requests s) (number_params street number_prefix))).
    assert (street_numbers (after_numbers street number_prefix s) !! street
            = Some l0) as Hl0.
    { by rewrite after_numbers_street_numbers, lookup_insert_eq. }
    assert (x ∈ l0) as Hin by (apply elem_of_add_numbers; by right).
    rewrite explore_house_numbers_eq, decide_False by done. cbv zeta.
    destruct (_ =? 12)%nat.
    + destruct (grows_street_numbers _ _
        (for_each_post grows digits
           (λ digit, explore_house_numbers fuel street (number_prefix ++ [digit]))
           (after_numbers street number_prefix s)
           (λ c s0 _, grows_explore_house_numbers fuel street
                        (number_prefix ++ [c]) s0))
        street l0 Hl0) as [more Hm].
      exists (l0 ++ more). split; [done|]. apply elem_of_app. by left.
    + exists l0. by split.
Qed.

(** X5. A street exploration stays in its subtree: it requests and
    completes only prefixes that extend its own, and it touches neither
    the house numbers, nor the completed house-number keys, nor the
    files. *)
Theorem X5_street_exploration_stays_in_its_subtree fuel prefix s :
  let s' := state_of (explore_prefix fuel prefix s) in
  (∃ new, requests s' = requests s ++ new
          ∧ Forall (λ r, ∃ q, r = GetStreets (prefix ++ q)) new)
  ∧ (∀ k, k ∈ completed_queries s' →
          k ∈ completed_queries s ∨ ∃ q, k = prefix ++ q)
  ∧ street_numbers s' = street_numbers s
  ∧ completed_number_queries s' = completed_number_queries s
  ∧ disk s' = disk s.
Proof.
  destruct (street_tree_explore_prefix fuel prefix s)
    as [(new & E & F) Hc Hn Hq Hd].
  cbv zeta. split_and!; try done.
  exists new. split; [done|]. eapply Forall_impl; [exact F|].
  intros r (q & [q' ->] & ->). by exists q'.
Qed.

(** X6. A house-number exploration stays with its street and in its
    subtree: its requests are for that street with prefixes that extend
    its own by digits, it completes only such keys, and it leaves the
    lists of all other streets, the street names, the completed street
    prefixes and the files as they are. *)
Theorem X6_number_exploration_stays_with_its_street
    fuel street number_prefix s :
  let s' := state_of (explore_house_numbers fuel street number_prefix s) in
  (∃ new, requests s' = requests s ++ new
          ∧ Forall (λ r, ∃ q, Forall (λ c, c ∈ utf8 "0123456789") q
                              ∧ r = number_params street (number_prefix ++ q))
              new)
  ∧ (∀ k, k ∈ completed_number_queries s' →
          k ∈ completed_number_queries s
          ∨ ∃ q, Forall (λ c, c ∈ utf8 "0123456789") q
                 ∧ k = query_key street (number_prefix ++ q))
  ∧ (∀ street', street' ≠ street →
                street_numbers s' !! street' = street_numbers s !! street')
  ∧ street_names s' = street_names s
  ∧ completed_queries s' = completed_queries s
  ∧ disk s' = disk s.
Proof.
  destruct (number_tree_explore_house_numbers fuel street number_prefix s)
    as [(new & E & F) Hc Hn Hq Ho Hd].
  cbv zeta. split_and!; try done.
  - exists new. split; [done|]. eapply Forall_impl; [exact F|].
    intros r (q & (q' & Hq' & ->) & ->). by exists q'.
  - intros k Hk. destruct (Hc k Hk) as [|(q & (q' & Hq' & ->) & ->)];
      [by left|right]. by exists q'.
Qed.

(** ** The fetch functions *)

(** X7. A fetch always returns, after exactly one request (without the
    [streetnr] parameter when the number prefix is empty); it changes no
    attribute and no file, and prints nothing or else one error line
    together with an empty result. *)
Theorem X7_fetch_is_one_request_and_no_update prefix street number_prefix s :
  (∃ l s', fetch_streets prefix s = Done l s'
           ∧ requests s' = requests s ++ [GetStreets prefix]
           ∧ street_names s' = street_names s
           ∧ completed_queries s' = completed_queries s
           ∧ street_numbers s' = street_numbers s
           ∧ completed_number_queries s' = completed_number_queries s
           ∧ disk s' = disk s
           ∧ (stdout s' = stdout s
              ∨ stdout s' = stdout s ++ [ErrorFetchingStreets prefix] ∧ l = []))
  ∧ (∃ l s', fetch_house_numbers street number_prefix s = Done l s'
             ∧ requests s'
               = requests s
                   ++ [GetNumbers street
                         (if decide (number_prefix = []) then None
                          else Some number_prefix)]
             ∧ street_names s' = street_names s
             ∧ completed_queries s' = completed_queries s
             ∧ street_numbers s' = street_numbers s
             ∧ completed_number_queries s' = completed_number_queries s
             ∧ disk s' = disk s
             ∧ (stdout s' = stdout s
                ∨ stdout s'
                  = stdout s ++ [ErrorFetchingNumbers street number_prefix]
                  ∧ l = [])).
Proof.
  assert (Hempty : ∀ r, raises (server (requests s) r) = true →
                        answer (requests s) r = []).
  { intros r. unfold raises, answer. destruct (server _ _); try done.
    by destruct (extract _). }
  split.
  - eexists _, _. rewrite fetch_streets_eq. split; [reflexivity|].
    rewrite after_fetch_requests, after_fetch_street_names,
      after_fetch_completed_queries, after_fetch_street_numbers,
      after_fetch_completed_number_queries, after_fetch_disk,
      after_fetch_stdout.
    split_and!; try done.
    destruct (raises _) eqn:E; [right|left; by rewrite app_nil_r].
    split; [done|]. by apply Hempty.
  - eexists _, _. rewrite fetch_house_numbers_eq. split; [reflexivity|].
    rewrite after_fetch_requests, after_fetch_street_names,
      after_fetch_completed_queries, after_fetch_street_numbers,
      after_fetch_completed_number_queries, after_fetch_disk,
      after_fetch_stdout.
    split_and!; try done.
    + unfold number_params. by destruct number_prefix.
    + destruct (raises _) eqn:E; [right|left; by rewrite app_nil_r].
      split; [done|]. by apply Hempty.
Qed.

(** ** Keys *)


(** ** Loading *)

(** X9. Loading twice is loading once: a second [load_existing_data]
    leaves every attribute as the first one set it; loading sends no
    request, never changes the completed house-number keys, and leaves the
    files alone. *)
Theorem X9_load_existing_data_is_idempotent s :
  ∃ s1 s2,
    load_existing_data s = Done () s1
    ∧ load_existing_data s1 = Done () s2
    ∧ street_names s2 = street_names s1
    ∧ completed_queries s2 = completed_queries s1
    ∧ street_numbers s2 = street_numbers s1
    ∧ completed_number_queries s2 = completed_number_queries s
    ∧ requests s2 = requests s
    ∧ disk s2 = disk s.
Proof.
  destruct (load_existing_data_eq s)
    as (s1 & H1 & A1 & B1 & C1 & D1 & E1 & _ & F1).
  destruct (load_existing_data_eq s1)
    as (s2 & H2 & A2 & B2 & C2 & D2 & E2 & _ & F2).
  exists s1, s2. rewrite A2, B2, C2, D2, E2, F2, F1, D1, E1.
  split_and!; try done.
  - rewrite A1. by destruct (street_names_json (disk s)).
  - rewrite B1. by destruct (completed_queries_json (disk s)).
  - rewrite C1. by destruct (street_numbers_json (disk s)).
Qed.

(** ** The recursion budget *)



(** ** Completion and the requests of one exploration *)

Global Instance asked_first_preorder done ask : PreOrder (asked_first done ask).
Proof.
  split.
  - intros s. exists []. split; [by rewrite app_nil_r|]. by left.
  - intros s1 s2 s3 (n1 & E1 & H1) (n2 & E2 & H2). exists (n1 ++ n2).
    split; [by rewrite E2, E1, app_assoc|]. intros k Hk.
    destruct (H2 k Hk) as [Hk2|(r & Hr & Hin)].
    + destruct (H1 k Hk2) as [|(r & Hr & Hin)]; [by left|right].
      exists r. split; [done|]. apply elem_of_app. by left.
    + right. exists r. split; [done|]. apply elem_of_app. by right.
Qed.

Lemma asked_first_explore_prefix fuel p s :
  asked_first completed_queries (λ k r, r = GetStreets k)
    s (state_of (explore_prefix fuel p s)).
Proof.
  revert p s. induction fuel as [|fuel IH]; intros p s; [reflexivity|].
  rewrite explore_prefix_eq. cbv zeta. destruct (_ =? 12)%nat.
  - transitivity (after_streets p s).
    + exists [GetStreets p]. split; [apply after_streets_requests|].
      rewrite after_streets_completed_queries. by left.
    + apply (for_each_post (asked_first completed_queries
                              (λ k r, r = GetStreets k))).
      intros. apply IH.
  - exists [GetStreets p]. fields. split; [apply after_streets_requests|].
    rewrite after_streets_completed_queries.
    intros k [->%elem_of_singleton|Hk]%elem_of_union; [right|by left].
    exists (GetStreets p). split; [done|]. by left.
Qed.

Lemma asked_first_explore_house_numbers fuel street p s :
  asked_first completed_number_queries
    (λ k r, ∃ q, k = query_key street q ∧ r = number_params street q)
    s (state_of (explore_house_numbers fuel street p s)).
Proof.
  revert p s. induction fuel as [|fuel IH]; intros p s; [reflexivity|].
  rewrite explore_house_numbers_eq. destruct (decide _); [reflexivity|].
  cbv zeta. destruct (_ =? 12)%nat.
  - transitivity (after_numbers street p s).
    + exists [number_params street p]. split; [apply after_numbers_requests|].
      rewrite after_numbers_completed_number_queries. by left.
    + apply (for_each_post
               (asked_first completed_number_queries
                  (λ k r, ∃ q, k = query_key street q
                               ∧ r = number_params street q))).
      intros. apply IH.
  - exists [number_params street p]. fields.
    split; [apply after_numbers_requests|].
    rewrite after_numbers_completed_number_queries.
    intros k [->%elem_of_singleton|Hk]%elem_of_union; [right|by left].
    exists (number_params street p). split; [by exists p|]. by left.
Qed.

(** X11. A prefix is only ever marked complete by an exploration that has
    sent the request for it: every completed street prefix and every
    completed house-number key that is new after a call was asked for
    during the call. *)
Theorem X11_only_queried_prefixes_are_completed
    fuel prefix street number_prefix s :
  (∃ new,
     requests (state_of (explore_prefix fuel prefix s)) = requests s ++ new
     ∧ ∀ k, k ∈ completed_queries (state_of (explore_prefix fuel prefix s)) →
            k ∈ completed_queries s ∨ GetStreets k ∈ new)
  ∧ (∃ new,
       requests (state_of (explore_house_numbers fuel street number_prefix s))
       = requests s ++ new
       ∧ ∀ k, k ∈ completed_number_queries
                    (state_of (explore_house_numbers fuel street
                                 number_prefix s)) →
              k ∈ completed_number_queries s
              ∨ ∃ q, k = query_key street q ∧ number_params street q ∈ new).
Proof.
  split.
  - destruct (asked_first_explore_prefix fuel prefix s) as (new & E & H).
    exists new. split; [done|]. intros k Hk.
    destruct (H k Hk) as [|(r & -> & Hin)]; auto.
  - destruct (asked_first_explore_house_numbers fuel street number_prefix s)
      as (new & E & H).
    exists new. split; [done|]. intros k Hk.
    destruct (H k Hk) as [|(r & (q & -> & ->) & Hin)]; eauto.
Qed.

(** The requests of a loop over the children [p + c] of a prefix, when
    those of each child are distinct requests below that child. *)
Lemma children_trace (mk : str → request) `{!Inj (=) (=) mk}
    (body : N → M unit) p l s :
  NoDup l →
  (∀ c s0, ∃ new, requests (state_of (body c s0)) = requests s0 ++ new
                  ∧ NoDup new
                  ∧ Forall (λ r, ∃ q, r = mk (p ++ c :: q)) new) →
  ∃ new, requests (state_of (for_each l body s)) = requests s ++ new
         ∧ NoDup new
         ∧ Forall (λ r, ∃ c q, c ∈ l ∧ r = mk (p ++ c :: q)) new.
Proof.
  intros Hnd Hbody. revert s.
  induction Hnd as [|x l Hx Hnd IH]; intros s.
  - exists []. simpl.
    split_and!; [by rewrite app_nil_r|apply NoDup_nil_2|apply Forall_nil_2].
  - simpl for_each. rewrite bind_run.
    destruct (Hbody x s) as (nx & Ex & Nx & Fx).
    assert (Fx' : Forall (λ r, ∃ c q, c ∈ x :: l ∧ r = mk (p ++ c :: q)) nx).
    { eapply Forall_impl; [exact Fx|]. intros r [q ->]. exists x, q.
      split; [by left|done]. }
    destruct (body x s) as [[] s1|h s1]; simpl in Ex.
    + destruct (IH s1) as (nr & Er & Nr & Fr).
      exists (nx ++ nr). split; [by rewrite Er, Ex, app_assoc|]. split.
      * apply NoDup_app. split; [done|]. split; [|done].
        intros r Hr1 Hr2. rewrite Forall_forall in Fx, Fr.
        destruct (Fx r Hr1) as [q ->].
        destruct (Fr _ Hr2) as (c & q' & Hc & E).
        apply (inj mk), app_inv_head in E. by injection E as -> _.
      * apply Forall_app. split; [done|].
        eapply Forall_impl; [exact Fr|]. intros r (c & q & Hc & ->).
        exists c, q. split; [by right|done].
    + by exists nx.
Qed.

Global Instance GetStreets_inj : Inj (=) (=) GetStreets.
Proof. by intros p q [= ->]. Qed.

Global Instance number_params_inj' street : Inj (=) (=) (number_params street).
Proof. intros p q. apply number_params_inj. Qed.

Lemma explore_prefix_trace fuel p s :
  ∃ new, requests (state_of (explore_prefix fuel p s)) = requests s ++ new
         ∧ NoDup new
         ∧ Forall (λ r, ∃ q, r = GetStreets (p ++ q)) new.
Proof.
  revert p s. induction fuel as [|fuel IH]; intros p s.
  { exists []. simpl.
    split_and!; [by rewrite app_nil_r|apply NoDup_nil_2|apply Forall_nil_2]. }
  rewrite explore_prefix_eq. cbv zeta. destruct (_ =? 12)%nat.
  - destruct (children_trace GetStreets
                (λ c, explore_prefix fuel (p ++ [c])) p
                (get_next_characters p) (after_streets p s)
                (get_next_characters_NoDup p)) as (new & E & Nd & F).
    { intros c s0. destruct (IH (p ++ [c]) s0) as (new & E & Nd & F).
      exists new. split; [done|]. split; [done|].
      eapply Forall_impl; [exact F|]. intros r [q ->]. exists q.
      by rewrite <- app_assoc. }
    exists (GetStreets p :: new).
    split; [by rewrite E, after_streets_requests, <- app_assoc|]. split.
    + apply NoDup_cons. split; [|done]. intros Hin.
      rewrite Forall_forall in F. destruct (F _ Hin) as (c & q & _ & [= E']).
      apply (extends_strictly_ne p). by exists c, q.
    + constructor; [exists []; by rewrite app_nil_r|].
      eapply Forall_impl; [exact F|]. intros r (c & q & _ & ->).
      by exists (c :: q).
  - exists [GetStreets p]. fields. split; [apply after_streets_requests|].
    split; [apply NoDup_singleton|].
    constructor; [|done]. exists []. by rewrite app_nil_r.
Qed.

Lemma explore_house_numbers_trace fuel street p s :
  ∃ new,
    requests (state_of (explore_house_numbers fuel street p s))
    = requests s ++ new
    ∧ NoDup new
    ∧ Forall (λ r, ∃ q, r = number_params street (p ++ q)) new.
Proof.
  revert p s. induction fuel as [|fuel IH]; intros p s.
  { exists []. simpl.
    split_and!; [by rewrite app_nil_r|apply NoDup_nil_2|apply Forall_nil_2]. }
  rewrite explore_house_numbers_eq. destruct (decide _).
  { exists []. simpl.
    split_and!; [by rewrite app_nil_r|apply NoDup_nil_2|apply Forall_nil_2]. }
  cbv zeta. destruct (_ =? 12)%nat.
  - assert (Hnd : NoDup digits).
    { apply (bool_decide_unpack (NoDup digits)). by vm_compute. }
    destruct (children_trace (number_params street)
                (λ c, explore_house_numbers fuel street (p ++ [c])) p
                digits (after_numbers street p s) Hnd)
      as (new & E & Nd & F).
    { intros c s0. destruct (IH (p ++ [c]) s0) as (new & E & Nd & F).
      exists new. split; [done|]. split; [done|].
      eapply Forall_impl; [exact F|]. intros r [q ->]. exists q.
      by rewrite <- app_assoc. }
    exists (number_params street p :: new).
    split; [by rewrite E, after_numbers_requests, <- app_assoc|]. split.
    + apply NoDup_cons. split; [|done]. intros Hin.
      rewrite Forall_forall in F. destruct (F _ Hin) as (c & q & _ & E').
      apply number_params_inj in E'.
      apply (extends_strictly_ne p). by exists c, q.
    + constructor; [exists []; by rewrite app_nil_r|].
      eapply Forall_impl; [exact F|]. intros r (c & q & _ & ->).
      by exists (c :: q).
  - exists [number_params street p]. fields.
    split; [apply after_numbers_requests|].
    split; [apply NoDup_singleton|].
    constructor; [|done]. exists []. by rewrite app_nil_r.
Qed.

(** X12. One exploration never sends the same request twice, in either
    scope, whatever the server answers and however the call ends. *)
Theorem X12_an_exploration_repeats_no_request
    fuel prefix street number_prefix s :
  (∃ new,
     requests (state_of (explore_prefix fuel prefix s)) = requests s ++ new
     ∧ NoDup new)
  ∧ (∃ new,
       requests (state_of (explore_house_numbers fuel street number_prefix s))
       = requests s ++ new
       ∧ NoDup new).
Proof.
  split.
  - destruct (explore_prefix_trace fuel prefix s) as (new & E & Nd & _).
    by exists new.
  - destruct (explore_house_numbers_trace fuel street number_prefix s)
      as (new & E & Nd & _).
    by exists new.
Qed.

(** ** Runs of [main] *)

Lemma triple_bind {A B} P Q' Q (m : M A) (f : A → M B) :
  triple P m Q' → (∀ a, triple Q' (f a) Q) → triple P (m ≫= f) Q.
Proof.
  intros Hm Hf s HP. rewrite bind_run. specialize (Hm s HP).
  destruct (m s) as [a s1|]; [|done]. intros Hr.
  apply (Hf a s1); [by apply Hm|done].
Qed.

Lemma triple_get_bind {A B} P Q (f : fetcher → A) (k : A → M B) :
  (∀ a, triple (λ s, P s ∧ f s = a) (k a) Q) → triple P (get f ≫= k) Q.
Proof. intros H s HP. by apply (H (f s)). Qed.

Lemma triple_keeps {A} I (m : M A) : post (keeps I) m → triple I m I.
Proof. intros Hm s HI _. by apply Hm. Qed.

Lemma triple_conseq {A} (P P' Q Q' : fetcher → Prop) (m : M A) :
  (∀ s, P s → P' s) → (∀ s, Q' s → Q s) → triple P' m Q' → triple P m Q.
Proof. intros HP HQ Hm s Hs Hr. apply HQ, Hm; auto. Qed.

Lemma triple_for_each {A} (J : fetcher → Prop) (Q : A → fetcher → Prop)
    (l : list A) (body : A → M unit) :
  (∀ x, x ∈ l → post (keeps J) (body x)) →
  (∀ x, x ∈ l → triple J (body x) (Q x)) →
  (∀ x y, y ∈ l → post (keeps (Q x)) (body y)) →
  triple J (for_each l body) (λ s, J s ∧ ∀ x, x ∈ l → Q x s).
Proof.
  induction l as [|y l IH]; intros HJ HQ Hkeep s Hs.
  - intros _. split; [done|]. by intros x ?%not_elem_of_nil.
  - simpl for_each. rewrite bind_run.
    pose proof (HJ y (list_elem_of_here _ _) s Hs) as HJy.
    pose proof (HQ y (list_elem_of_here _ _) s Hs) as HQy.
    destruct (body y s) as [[] s1|]; [|done]. simpl in HJy, HQy.
    intros Hr.
    destruct (IH (λ x Hx, HJ x (list_elem_of_further _ _ _ Hx))
                 (λ x Hx, HQ x (list_elem_of_further _ _ _ Hx))
                 (λ x z Hz, Hkeep x z (list_elem_of_further _ _ _ Hz))
                 s1 HJy Hr) as [HJ' HQ'].
    split; [done|]. intros x [->|Hx]%elem_of_cons; [|by apply HQ'].
    apply (for_each_post (keeps (Q y))); [|by apply HQy].
    intros z s0 Hz. by apply Hkeep, list_elem_of_further.
Qed.

Lemma keeps_and (I1 I2 : fetcher → Prop) {A} (m : M A) :
  post (keeps I1) m → post (keeps I2) m → post (keeps (λ s, I1 s ∧ I2 s)) m.
Proof. intros H1 H2 s [? ?]. split; [by apply H1|by apply H2]. Qed.

Lemma keeps_processed street s s' : grows s s' → keeps (processed street) s s'.
Proof.
  intros Hg [l Hl]. destruct (grows_street_numbers _ _ Hg street l Hl).
  by eexists.
Qed.

(** The street names are those of [s]. *)
Lemma names_kept_collect fuel street names :
  post (keeps (λ s, street_names s = names))
    (collect_house_numbers_for_street fuel street).
Proof.
  apply collect_house_numbers_for_street_post; [apply _|..].
  - intros ln s E. exact E.
  - intros d _ s E.
    by rewrite (number_tree_names _ _ _ _
                  (number_tree_explore_house_numbers fuel street [d] s)).
Qed.

Lemma names_kept_save_results names :
  post (keeps (λ s, street_names s = names)) save_results.
Proof.
  intros s E. destruct (save_results_eq s) as (s' & -> & E1 & _).
  simpl. by rewrite E1.
Qed.

Lemma collect_returns_processed fuel street :
  triple completed_keys_known (collect_house_numbers_for_street fuel street)
    (processed street).
Proof.
  intros s Hs. destruct (street_numbers s !! street) as [l|] eqn:Hl.
  - erewrite collect_house_numbers_for_street_known by done.
    intros _. by exists l.
  - rewrite collect_house_numbers_for_street_new by done.
    change (utf8 "123456789") with (49 :: utf8 "23456789").
    change (for_each (49 :: ?l) ?body)
      with (body 49 ≫= λ _, for_each l body).
    rewrite bind_run. destruct fuel as [|fuel]; [done|].
    assert (Hk : query_key street [49] ∉ completed_number_queries s).
    { intros Hk. destruct (Hs street [49]) as [l' Hl']; [|done|congruence].
      constructor; [|done]. apply (bool_decide_unpack _). by vm_compute. }
    pose proof (explore_house_numbers_enters fuel street [49] s Hk) as Hin.
    destruct (explore_house_numbers (S fuel) street [49] s) as [[] s1|];
      [|done].
    intros _. simpl in Hin. revert Hin. apply keeps_processed.
    apply (for_each_post grows). intros. apply grows_explore_house_numbers.
Qed.

Lemma elem_of_enumerate {A} (l : list A) (start : nat) x :
  x ∈ l → ∃ i, (i, x) ∈ enumerate start l.
Proof.
  revert start. induction l as [|y l IH]; intros start Hx.
  - by apply not_elem_of_nil in Hx.
  - apply elem_of_cons in Hx as [->|Hx].
    + exists start. by left.
    + destruct (IH (S start) Hx) as [i Hi]. exists i. by right.
Qed.

Lemma enumerate_elem_of {A} (l : list A) (start : nat) i x :
  (i, x) ∈ enumerate start l → x ∈ l.
Proof.
  revert start. induction l as [|y l IH]; intros start; simpl.
  - by intros ?%not_elem_of_nil.
  - intros [[= -> ->]|Hx]%elem_of_cons; [by left|]. right. by eapply IH.
Qed.

Lemma main_finished fuel :
  triple (λ s, completed_number_queries s = ∅) (main fuel)
    (λ s', (∀ street, street ∈ street_names s' → processed street s')
           ∧ disk s' = snapshot s').
Proof.
  set (Final := λ s', (∀ street, street ∈ street_names s' → processed street s')
                      ∧ disk s' = snapshot s').
  assert (HKprint : ∀ ln, post (keeps completed_keys_known) (print ln)).
  { intros ln s. by apply completed_keys_known_same. }
  assert (HKsave := completed_keys_known_save_results).
  assert (HKexplore := completed_keys_known_explore_prefix fuel).
  assert (HKcollect := completed_keys_known_collect fuel).
  unfold main, collect_streets_starting_with.
  apply (triple_bind _ completed_keys_known).
  { intros s E _. apply completed_keys_known_empty.
    destruct (load_existing_data_eq s) as (s' & -> & _ & _ & _ & E4 & _).
    simpl. by rewrite E4. }
  intros _. apply triple_get_bind. intros loaded.
  apply (triple_bind _ completed_keys_known).
  { apply (triple_conseq _ completed_keys_known _ completed_keys_known);
      [by intros s [? _]|done|].
    apply triple_keeps. destruct (decide _); post_steps. }
  intros _.
  apply (triple_bind _ completed_keys_known); [by apply triple_keeps|].
  intros _. apply triple_get_bind. intros names.
  set (J := λ s, completed_keys_known s ∧ street_names s = names).
  assert (HJprint : ∀ ln, post (keeps J) (print ln)).
  { intros ln. apply keeps_and; [done|]. intros s E. exact E. }
  assert (HJsave : post (keeps J) save_results).
  { apply keeps_and; [done|apply names_kept_save_results]. }
  assert (HJcollect : ∀ street,
            post (keeps J) (collect_house_numbers_for_street fuel street)).
  { intros street. apply keeps_and; [done|apply names_kept_collect]. }
  apply (triple_bind _ J); [by apply triple_keeps|]. intros _.
  set (street_list := sorted str_lt (elements names)).
  set (Q := λ (x : nat * str) s, processed x.2 s).
  eapply triple_bind.
  { apply (triple_for_each J Q).
    - intros [i street] _. post_steps.
    - intros [i street] _.
      apply (triple_bind _ J); [by apply triple_keeps|]. intros _.
      apply (triple_bind _ (processed street)).
      + apply (triple_conseq _ completed_keys_known _ (processed street));
          [by intros s [? _]|done|apply collect_returns_processed].
      + intros _. apply triple_keeps.
        assert (∀ ln, post (keeps (processed street)) (print ln))
          by (intros ln s0; apply keeps_processed, grows_printed).
        assert (post (keeps (processed street)) save_results)
          by (intros s0; apply keeps_processed, grows_save_results).
        destruct (_ =? 0)%nat; post_steps.
    - intros [i street] [j street'] _.
      assert (∀ ln, post (keeps (Q (i, street))) (print ln))
        by (intros ln s0; apply keeps_processed, grows_printed).
      assert (post (keeps (Q (i, street))) save_results)
        by (intros s0; apply keeps_processed, grows_save_results).
      assert (∀ street0, post (keeps (Q (i, street)))
                           (collect_house_numbers_for_street fuel street0))
        by (intros street0 s0; apply keeps_processed,
              grows_collect_house_numbers_for_street).
      post_steps. }
  intros _.
  apply (triple_bind _ Final).
  { intros s [[_ Hnames] Hall] _.
    destruct (save_results_eq s)
      as (s' & -> & E1 & E2 & E3 & E4 & _ & _ & E7).
    simpl. split.
    - intros street Hin. rewrite E1, Hnames in Hin. unfold processed.
      rewrite E3.
      assert (street ∈ street_list) as Hl.
      { unfold street_list. by rewrite sorted_perm, elem_of_elements. }
      destruct (elem_of_enumerate street_list 1 street Hl) as [i Hi].
      apply (Hall (i, street) Hi).
    - rewrite E7. unfold snapshot. by rewrite E1, E2, E3. }
  intros _. apply triple_keeps.
  assert (∀ ln, post (keeps Final) (print ln)) by (intros ln s0 E; exact E).
  post_steps.
Qed.

(** X13. A run of [main] that starts without completed house-number keys
    (as every program run does) and returns has processed every street it
    knows, and the files it leaves hold exactly its final attributes:
    sorted street names, sorted completed prefixes, sorted house numbers
    of every street. *)
Theorem X13_a_finished_run_has_processed_and_saved_everything fuel s :
  completed_number_queries s = ∅ →
  returned (main fuel s) = true →
  (∀ street, street ∈ street_names (state_of (main fuel s)) →
             is_Some (street_numbers (state_of (main fuel s)) !! street))
  ∧ disk (state_of (main fuel s)) = snapshot (state_of (main fuel s)).
Proof. apply main_finished. Qed.

(** ** What a restart finds *)

Lemma sorted_id {A} (lt : A → A → bool) l :
  Sorted (λ a b, lt b a = false) l → sorted lt l = l.
Proof.
  induction 1 as [|x l Hl IH Hx]; [done|].
  change (sorted lt (x :: l)) with (insert_sorted lt x (sorted lt l)).
  rewrite IH. destruct Hx as [|y l Hy]; simpl; [done|]. by rewrite Hy.
Qed.

Lemma sorted_idem {A} (lt : A → A → bool) l :
  (∀ a b, lt a b = true → lt b a = false) →
  sorted lt (sorted lt l) = sorted lt l.
Proof. intros. by apply sorted_id, sorted_Sorted. Qed.

Lemma mapM_number_key_snd (L : list ((Z * str) * str)) :
  Forall (λ a, number_key a.2 = Some a.1) L →
  mapM number_key L.*2 = Some L.*1.
Proof.
  intros H. apply mapM_Some_2. induction H; simpl; by constructor.
Qed.

Lemma sort_numbers_idem numbers :
  sort_numbers (sort_numbers numbers) = sort_numbers numbers.
Proof.
  destruct (mapM number_key numbers) as [keys|] eqn:E.
  - assert (sort_numbers numbers = sorted_with_keys key_lt keys numbers) as ->
      by (unfold sort_numbers; by rewrite E).
    apply mapM_Some_1 in E. unfold sorted_with_keys.
    set (ltk := λ a b : (Z * str) * str, key_lt a.1 b.1).
    set (L := sorted ltk (zip keys numbers)).
    assert (Forall (λ a, number_key a.2 = Some a.1) L) as HL.
    { unfold L. rewrite sorted_perm. induction E; simpl; by constructor. }
    unfold sort_numbers. rewrite (mapM_number_key_snd L HL).
    unfold sorted_with_keys. rewrite zip_fst_snd. fold ltk.
    unfold L. rewrite sorted_idem; [done|]. intros a b. apply key_lt_asym.
  - apply mapM_None_1 in E.
    rewrite (sort_numbers_fallback numbers E).
    rewrite sort_numbers_fallback; [apply sorted_idem, str_lt_asym|].
    apply Exists_exists in E as (x & Hx & Hn). apply Exists_exists.
    exists x. split; [|done]. by rewrite sorted_perm.
Qed.

Lemma list_to_set_sorted (X : gset str) :
  list_to_set (sorted str_lt (elements X)) = X.
Proof.
  apply set_eq. intros x.
  by rewrite elem_of_list_to_set, sorted_perm, elem_of_elements.
Qed.

Lemma snapshot_reloaded (X C : gset str) (m : gmap str (list str)) :
  {| street_names_json :=
       Some (sorted str_lt
               (elements (list_to_set (sorted str_lt (elements X))
                          : gset str)));
     completed_queries_json :=
       Some (sorted str_lt
               (elements (list_to_set (sorted str_lt (elements C))
                          : gset str)));
     street_numbers_json := Some (sort_numbers <$> (sort_numbers <$> m)) |}
  = {| street_names_json := Some (sorted str_lt (elements X));
       completed_queries_json := Some (sorted str_lt (elements C));
       street_numbers_json := Some (sort_numbers <$> m) |}.
Proof.
  rewrite !list_to_set_sorted. do 2 f_equal.
  rewrite <- map_fmap_compose. apply map_fmap_ext.
  intros street l _. apply sort_numbers_idem.
Qed.

(** X14. A new program run that loads the files written by [save_results]
    starts with the saved street names and completed prefixes and, for
    every street, the house numbers it had, reordered; its set of
    completed house-number keys is empty, as that set is not saved; and
    saving at once writes the same three files again. *)
Theorem X14_a_restart_restores_what_was_saved s :
  let saved := disk (state_of (save_results s)) in
  let s' := state_of (load_existing_data (init saved)) in
  returned (load_existing_data (init saved)) = true
  ∧ street_names s' = street_names s
  ∧ completed_queries s' = completed_queries s
  ∧ (∀ street,
       match street_numbers s !! street with
       | Some l => ∃ l', street_numbers s' !! street = Some l' ∧ l' ≡ₚ l
       | None => street_numbers s' !! street = None
       end)
  ∧ completed_number_queries s' = ∅
  ∧ requests s' = []
  ∧ disk (state_of (save_results s')) = saved.
Proof.
  cbv zeta.
  destruct (save_results_eq s) as (s1 & -> & _ & _ & _ & _ & _ & _ & E1).
  cbn [state_of]. rewrite E1. clear s1 E1.
  set (saved := Build_files _ _ _).
  destruct (load_existing_data_eq (init saved))
    as (s2 & -> & L1 & L2 & L3 & L4 & L5 & _ & L7).
  cbn [state_of]. simpl in L1, L2, L3, L4, L5, L7.
  split; [done|]. split; [by rewrite L1, list_to_set_sorted|].
  split; [by rewrite L2, list_to_set_sorted|]. split.
  { intros street. rewrite L3, lookup_fmap.
    destruct (street_numbers s !! street) as [l|]; simpl; [|done].
    exists (sort_numbers l). split; [done|apply sort_numbers_perm]. }
  split; [done|]. split; [done|].
  destruct (save_results_eq s2) as (s3 & -> & _ & _ & _ & _ & _ & _ & E3).
  cbn [state_of]. rewrite E3, L1, L2, L3. apply snapshot_reloaded.
Qed.

(** ** A second program run *)

Lemma total_bind {A B} P Q' Q (m : M A) (f : A → M B) :
  total P m Q' → (∀ a, total Q' (f a) Q) → total P (m ≫= f) Q.
Proof.
  intros Hm Hf s HP. rewrite bind_run.
  destruct (Hm s HP) as (a & s1 & -> & H1). by apply Hf.
Qed.

Lemma total_get_bind {A B} P Q (f : fetcher → A) (k : A → M B) :
  (∀ s0, P s0 → total (λ s, s = s0) (k (f s0)) Q) →
  total P (get f ≫= k) Q.
Proof. intros H s HP. by apply (H s HP s). Qed.

Lemma total_pre {A} (P P' Q : fetcher → Prop) (m : M A) :
  (∀ s, P s → P' s) → total P' m Q → total P m Q.
Proof. intros HP Hm s Hs. by apply Hm, HP. Qed.

Lemma total_ret P : total P (mret ()) P.
Proof. intros s HP. by exists (), s. Qed.

Lemma total_print (P Q : fetcher → Prop) ln :
  (∀ s, P s → Q (printed ln s)) → total P (print ln) Q.
Proof. intros H s HP. exists (), (printed ln s). split; [done|auto]. Qed.

Lemma total_for_each {A} (I : fetcher → Prop) (l : list A)
    (body : A → M unit) :
  (∀ x, x ∈ l → total I (body x) I) → total I (for_each l body) I.
Proof.
  induction l as [|x l IH]; intros Hbody.
  - intros s HI. by exists (), s.
  - simpl for_each. apply (total_bind _ I).
    + apply Hbody. by left.
    + intros _. apply IH. intros y Hy. apply Hbody. by right.
Qed.

(** A run on files in which every street name has an entry among the
    house numbers. *)
Lemma main_rerun (fuel : nat) (names : list str) (m : gmap str (list str)) s :
  street_names_json (disk s) = Some names →
  names ≠ [] →
  street_numbers_json (disk s) = Some m →
  (∀ street, street ∈ names → is_Some (m !! street)) →
  ∃ s', main fuel s = Done () s'
        ∧ requests s' = requests s
        ∧ street_names s' = list_to_set names
        ∧ completed_queries s'
          = from_option list_to_set (completed_queries s)
              (completed_queries_json (disk s))
        ∧ street_numbers s' = m
        ∧ disk s' = snapshot s'.
Proof.
  intros Hnames Hne Hm Hall.
  set (C := from_option list_to_set (completed_queries s)
              (completed_queries_json (disk s))).
  set (I := λ s0, street_names s0 = list_to_set names
                  ∧ completed_queries s0 = C
                  ∧ street_numbers s0 = m
                  ∧ requests s0 = requests s).
  set (Final := λ s0, I s0 ∧ disk s0 = snapshot s0).
  enough (total (λ s0, s0 = s) (main fuel) Final) as H.
  { destruct (H s eq_refl) as ([] & s' & E & (E1 & E2 & E3 & E4) & Ed).
    by exists s'. }
  assert (HIprint : ∀ ln, total I (print ln) I).
  { intros ln. apply total_print. by intros s0 HI. }
  assert (HIsave : total I save_results I).
  { intros s0 (E1 & E2 & E3 & E4).
    destruct (save_results_eq s0) as (s' & -> & ? & ? & ? & _ & ? & _).
    exists (), s'. split; [done|]. unfold I. split_and!; congruence. }
  assert (HFprint : ∀ ln, total Final (print ln) Final).
  { intros ln. apply total_print. by intros s0 HI. }
  unfold main.
  apply (total_bind _ I).
  { intros ? ->.
    destruct (load_existing_data_eq s)
      as (s1 & -> & L1 & L2 & L3 & _ & L5 & _).
    exists (), s1. split; [done|]. rewrite Hnames in L1. rewrite Hm in L3.
    by unfold I. }
  intros _. apply total_get_bind. intros s0 HI. pose proof HI as (-> & _).
  apply (total_pre _ I); [by intros ? ->|]. clear s0 HI.
  apply (total_bind _ I).
  { rewrite decide_False; [apply total_ret|].
    destruct names as [|x r]; [done|]. intros E.
    apply (not_elem_of_empty (C := gset str) x). rewrite <- E.
    apply elem_of_list_to_set. by left. }
  intros _. apply (total_bind _ I); [done|].
  intros _. apply total_get_bind. intros s0 HI. pose proof HI as (-> & _).
  apply (total_pre _ I); [by intros ? ->|]. clear s0 HI.
  apply (total_bind _ I); [done|]. intros _.
  apply (total_bind _ I).
  { apply total_for_each. intros [i street] Hin.
    apply enumerate_elem_of in Hin.
    rewrite sorted_perm, elem_of_elements, elem_of_list_to_set in Hin.
    destruct (Hall street Hin) as [l Hl].
    apply (total_bind _ I); [done|]. intros _.
    apply (total_bind _ I).
    - intros s0 HI. pose proof HI as (_ & _ & E3 & _).
      erewrite collect_house_numbers_for_street_known by (by rewrite E3).
      exists (), (printed (AlreadyProcessed street) s0). by split.
    - intros _. destruct (_ =? 0)%nat; [|apply total_ret].
      apply (total_bind _ I); [done|]. intros _. done. }
  intros _. apply (total_bind _ Final).
  { intros s0 HI. pose proof HI as (E1 & E2 & E3 & E4).
    destruct (save_results_eq s0)
      as (s' & -> & S1 & S2 & S3 & _ & S5 & _ & S7).
    exists (), s'. split; [done|]. split.
    - unfold I. split_and!; congruence.
    - rewrite S7. unfold snapshot. by rewrite S1, S2, S3. }
  intros _. apply (total_bind _ Final); [done|]. intros _.
  apply total_get_bind. intros s0 HF.
  apply (total_pre _ Final); [by intros ? ->|]. clear HF.
  apply (total_bind _ Final); [done|]. intros _.
  apply total_get_bind. intros s3 HF.
  apply (total_pre _ Final); [by intros ? ->|]. clear HF.
  apply (total_bind _ Final); [done|]. intros _. done.
Qed.

(** X15. When a program run that found street names has returned, a second
    program run on the files it left returns whatever its recursion
    budget, sends no request at all, has the same street names and
    completed prefixes, and leaves the three files as they are. *)
Theorem X15_a_second_run_is_idle fuel fuel' s :
  completed_number_queries s = ∅ →
  returned (main fuel s) = true →
  street_names (state_of (main fuel s)) ≠ ∅ →
  ∃ s2, main fuel' (init (disk (state_of (main fuel s)))) = Done () s2
        ∧ requests s2 = []
        ∧ street_names s2 = street_names (state_of (main fuel s))
        ∧ completed_queries s2 = completed_queries (state_of (main fuel s))
        ∧ disk s2 = disk (state_of (main fuel s)).
Proof.
  intros Hempty Hret Hne.
  destruct (main_finished fuel s Hempty Hret) as [Hall Hdisk].
  set (s1 := state_of (main fuel s)) in *.
  destruct (main_rerun fuel' (sorted str_lt (elements (street_names s1)))
              (sort_numbers <$> street_numbers s1) (init (disk s1)))
    as (s2 & E & R1 & R2 & R3 & R4 & R5).
  - simpl. by rewrite Hdisk.
  - intros E. apply Hne. apply set_eq. intros x.
    rewrite <- elem_of_elements, <- (sorted_perm str_lt), E.
    split; [by intros ?%not_elem_of_nil|by intros ?%not_elem_of_empty].
  - simpl. by rewrite Hdisk.
  - intros street Hin. rewrite sorted_perm, elem_of_elements in Hin.
    destruct (Hall street Hin) as [l Hl]. rewrite lookup_fmap, Hl. by eexists.
  - exists s2. split; [done|]. split; [done|].
    rewrite list_to_set_sorted in R2. split; [done|].
    assert (completed_queries s2 = completed_queries s1) as R3'.
    { rewrite R3. simpl. rewrite Hdisk. simpl. apply list_to_set_sorted. }
    split; [done|].
    rewrite R5, Hdisk. unfold snapshot. rewrite R2, R3', R4.
    rewrite <- (list_to_set_sorted (street_names s1)) at 1.
    rewrite <- (list_to_set_sorted (completed_queries s1)) at 1.
    apply snapshot_reloaded.
Qed.

(** ** A run that finds street names in the files *)

Lemma get_bind_run {A B} (f : fetcher → A) (k : A → M B) s :
  (get f ≫= k) s = k (f s) s.
Proof. reflexivity. Qed.

Lemma ret_bind_run {A B} (a : A) (k : A → M B) s : (mret a ≫= k) s = k a s.
Proof. reflexivity. Qed.

Lemma print_bind_run {B} ln (k : unit → M B) s :
  (print ln ≫= k) s = k () (printed ln s).
Proof. reflexivity. Qed.

Lemma list_to_set_nonempty (l : list str) :
  l ≠ [] → (list_to_set l : gset str) ≠ ∅.
Proof.
  destruct l as [|x r]; [done|]. intros _ E.
  apply (not_elem_of_empty (C := gset str) x). rewrite <- E.
  apply elem_of_list_to_set. by left.
Qed.

(** What [main] does after [load_existing_data] when the file of street
    names is not empty: it goes through the loaded names only. *)
Lemma main_resumed_post R `{!PreOrder R} (fuel : nat) (names : list str) s :
  street_names_json (disk s) = Some names →
  names ≠ [] →
  (∀ ln, post R (print ln)) →
  post R save_results →
  (∀ street, street ∈ names →
             post R (collect_house_numbers_for_street fuel street)) →
  R (state_of (load_existing_data s)) (state_of (main fuel s)).
Proof.
  intros Hnames Hne Hprint Hsave Hcollect. unfold main. rewrite bind_run.
  destruct (load_existing_data_eq s) as (s1 & -> & L1 & _).
  cbn [state_of]. rewrite Hnames in L1. simpl in L1.
  rewrite get_bind_run. cbv beta. rewrite L1.
  rewrite decide_False by by apply list_to_set_nonempty.
  rewrite ret_bind_run, print_bind_run.
  etrans; [apply (Hprint CollectingHouseNumbers s1)|].
  change (state_of (print CollectingHouseNumbers s1))
    with (printed CollectingHouseNumbers s1).
  rewrite get_bind_run. cbv beta.
  change (street_names (printed CollectingHouseNumbers s1))
    with (street_names s1).
  rewrite L1. generalize (printed CollectingHouseNumbers s1). clear s1 L1.
  match goal with |- ∀ s1, R s1 (state_of (?m s1)) => change (post R m) end.
  apply post_bind; [apply _|done|]. intros _.
  apply post_bind; [apply _| |intros _; post_steps].
  intros s1. apply for_each_post; [apply _|]. intros [i street] s2 Hin.
  apply enumerate_elem_of in Hin.
  rewrite sorted_perm, elem_of_elements, elem_of_list_to_set in Hin.
  specialize (Hcollect street Hin). revert s2.
  match goal with |- ∀ s1, R s1 (state_of (?m s1)) => change (post R m) end.
  post_steps.
Qed.

(** X16. When the file of street names is not empty, [main] sends no
    street request, however the run ends: every request it sends asks for
    the house numbers of one of the loaded streets with a prefix that
    starts with a digit 1 to 9, the street names stay the loaded ones and
    the completed street prefixes stay as loaded, also when the earlier
    collection of street names had not finished. *)
Theorem X16_loaded_street_names_stop_the_street_collection
    (fuel : nat) (names : list str) s :
  street_names_json (disk s) = Some names →
  names ≠ [] →
  sends (λ r, ∃ street d q,
           street ∈ names ∧ d ∈ utf8 "123456789"
           ∧ r = GetNumbers street (Some (d :: q)))
    s (state_of (main fuel s))
  ∧ street_names (state_of (main fuel s)) = list_to_set names
  ∧ completed_queries (state_of (main fuel s))
    = from_option list_to_set (completed_queries s)
        (completed_queries_json (disk s)).
Proof.
  intros Hnames Hne.
  destruct (load_existing_data_eq s) as (s1 & E & L1 & L2 & _ & _ & L5 & _).
  split.
  - etrans; [apply (sends_same _ s (state_of (load_existing_data s)));
             by rewrite E|].
    apply (main_resumed_post _ fuel names s Hnames Hne).
    + intros ln s0. by apply sends_same.
    + intros s0. apply sends_same.
      by destruct (save_results_eq s0) as (s' & -> & _ & _ & _ & _ & ? & _).
    + intros street Hin s0.
      eapply sends_weaken;
        [|apply sends_collect_house_numbers_for_street].
      intros r (d & q & Hd & ->). by exists street, d, q.
  - set (R := λ s0 s' : fetcher,
               street_names s' = street_names s0
               ∧ completed_queries s' = completed_queries s0).
    assert (PreOrder R) as HR.
    { split; [by intros s0|].
      intros a b c [? ?] [? ?]. split; congruence. }
    assert (R (state_of (load_existing_data s)) (state_of (main fuel s)))
      as [H1 H2].
    { apply (main_resumed_post R fuel names s Hnames Hne).
      - by intros ln s0.
      - intros s0.
        by destruct (save_results_eq s0) as (s' & -> & ? & ? & _).
      - intros street _.
        apply collect_house_numbers_for_street_post; [apply _|..].
        + by intros ln s0.
        + intros d _ s0.
          destruct (number_tree_explore_house_numbers fuel street [d] s0).
          by split. }
    rewrite H1, H2, E. cbn [state_of]. rewrite L1, L2, Hnames. done.
Qed.

End Fetcher.

(** * Properties that speak about the tables *)

Lemma latin_lower_ascii : ascii_lower latin_lower.
Proof.
  intros c Hc. unfold latin_lower.
  destruct ((65 <=? c) && (c <=? 90)) eqn:E; [done|].
  replace (192 <=? c) with false by (symmetry; apply N.leb_gt; lia).
  simpl. replace (c =? 304) with false by (symmetry; apply N.eqb_neq; lia).
  by replace (c =? 8490) with false by (symmetry; apply N.eqb_neq; lia).
Qed.

Lemma latin_digits_ascii : ascii_digits latin_digits.
Proof.
  intros c Hc. unfold latin_digits.
  destruct ((48 <=? c) && (c <=? 57)) eqn:E; [done|].
  replace (c =? 178) with false by (symmetry; apply N.eqb_neq; lia).
  replace (c =? 179) with false by (symmetry; apply N.eqb_neq; lia).
  replace (c =? 185) with false by (symmetry; apply N.eqb_neq; lia).
  simpl. by replace (1632 <=? c) with false by (symmetry; apply N.leb_gt; lia).
Qed.

(** ** The sort key *)

Lemma int_digits_ascii char_class x a :
  ascii_digits char_class → Forall (λ c, c < 128) x →
  foldl (λ acc c,
           a ← acc;
           match char_class c with
           | DecimalDigit v => Some (10 * a + v)%Z
           | _ => None
           end) (Some a) (filter (λ c, isdigit char_class c) x)
  = Some (foldl (λ a c, if (48 <=? c) && (c <=? 57)
                        then (10 * a + Z.of_N (c - 48))%Z else a) a x).
Proof.
  intros Hascii Hx. revert a.
  induction Hx as [|c x Hc _ IH]; intros a; [done|].
  assert (Hd : isdigit char_class c = (48 <=? c) && (c <=? 57)).
  { unfold isdigit. rewrite (Hascii c Hc). by destruct (_ && _). }
  simpl foldl at 2. destruct ((48 <=? c) && (c <=? 57)) eqn:E.
  - rewrite filter_cons_True by by rewrite Hd.
    simpl foldl. rewrite (Hascii c Hc), E. apply IH.
  - rewrite filter_cons_False by (rewrite Hd; intros []).
    apply IH.
Qed.

Lemma number_key_ascii char_class x :
  ascii_digits char_class → Forall (λ c, c < 128) x →
  number_key char_class x = Some (digits_value x, x).
Proof.
  intros Hascii Hx. unfold number_key, digits_value, str in *. cbv zeta.
  pose proof (int_digits_ascii char_class x 0 Hascii Hx) as Hint.
  destruct (filter (λ c, isdigit char_class c) x) as [|d ds] eqn:E.
  - simpl in Hint. injection Hint as <-.
    change (utf8 "0") with [48]. unfold int. simpl.
    rewrite (Hascii 48) by done. reflexivity.
  - unfold int. by rewrite Hint.
Qed.

Lemma number_key_token char_class x k :
  number_key char_class x = Some k → k.2 = x.
Proof.
  unfold number_key. cbv zeta. destruct (int _ _); simpl; [|done].
  by intros [= <-].
Qed.

Lemma int_fails char_class text :
  Forall (λ c, isdigit char_class c = true) text →
  text ≠ [] →
  int char_class text = None ↔ Exists (λ c, char_class c = OtherDigit) text.
Proof.
  intros Hd Hne. unfold int. destruct text as [|c0 t0]; [done|].
  clear Hne. generalize 0%Z. revert Hd. generalize (c0 :: t0). clear.
  intros text Hd. induction Hd as [|c text Hc _ IH]; intros a; simpl.
  - split; [done|]. by intros ?%Exists_nil.
  - unfold isdigit in Hc. rewrite Exists_cons.
    destruct (char_class c) eqn:E; try done.
    + rewrite IH. split; [by right|]. by intros [|].
    + split; [by left|]. intros _. clear. induction text; simpl; auto.
Qed.

Lemma number_key_fails char_class x :
  ascii_digits char_class →
  number_key char_class x = None ↔ Exists (λ c, char_class c = OtherDigit) x.
Proof.
  intros Hascii. unfold number_key, str in *. cbv zeta.
  set (ds := filter (λ c, isdigit char_class c) x).
  assert (Hds : Forall (λ c, isdigit char_class c = true) ds).
  { apply Forall_forall. intros c [Hc _]%list_elem_of_filter.
    by destruct (isdigit char_class c). }
  assert (Hex : Exists (λ c, char_class c = OtherDigit) ds
                ↔ Exists (λ c, char_class c = OtherDigit) x).
  { rewrite !Exists_exists. split; intros (c & Hc & E); exists c.
    - by apply list_elem_of_filter in Hc as [_ Hc].
    - split; [|done]. apply list_elem_of_filter. split; [|done].
      unfold isdigit. by rewrite E. }
  destruct ds as [|d ds'] eqn:Eds.
  - change (utf8 "0") with [48]. unfold int. simpl.
    rewrite (Hascii 48) by done. simpl. rewrite <- Hex.
    split; [done|]. by intros ?%Exists_nil.
  - rewrite <- Hex, <- (int_fails char_class (d :: ds')) by done.
    destruct (int char_class (d :: ds')); simpl; by split.
Qed.

(** C6. [save_results] writes the street names in code-point order and
    each street's house numbers sorted by [sort_numbers]: a permutation of
    the list, ordered by the key (number, token) when every token has a
    key, where the number of an ASCII token is the value of its digits and
    0 without digits and ties are broken by the token, and in plain
    code-point order of the tokens when the key of some token fails, which
    happens exactly for a token with a digit character that is not
    decimal.  The numbers 10, 2, 1a, 2b are written as 1a, 2, 2b, 10. *)
Theorem C6_saved_lists_are_sorted char_class s :
  ascii_digits char_class →
  (∀ x, Forall (λ c, c < 128) x →
        number_key char_class x = Some (digits_value x, x))
  ∧ (∀ x k, number_key char_class x = Some k → k.2 = x)
  ∧ (∀ x, number_key char_class x = None
          ↔ Exists (λ c, char_class c = OtherDigit) x)
  ∧ (∀ n1 x1 n2 x2,
       key_le (n1, x1) (n2, x2) ↔ (n1 < n2)%Z ∨ (n1 = n2 ∧ str_le x1 x2))
  ∧ (∀ numbers,
       sort_numbers char_class numbers ≡ₚ numbers
       ∧ (Forall (λ x, is_Some (number_key char_class x)) numbers →
          Sorted (number_le char_class) (sort_numbers char_class numbers))
       ∧ (Exists (λ x, number_key char_class x = None) numbers →
          sort_numbers char_class numbers = sorted str_lt numbers
          ∧ Sorted str_le (sort_numbers char_class numbers)))
  ∧ sort_numbers char_class [utf8 "10"; utf8 "2"; utf8 "1a"; utf8 "2b"]
    = [utf8 "1a"; utf8 "2"; utf8 "2b"; utf8 "10"]
  ∧ ∃ s' names,
      save_results char_class s = Done () s'
      ∧ street_numbers_json (disk s')
        = Some (sort_numbers char_class <$> street_numbers s)
      ∧ street_names_json (disk s') = Some names
      ∧ Sorted str_le names
      ∧ ∀ x, x ∈ names ↔ x ∈ street_names s.
Proof.
  intros Hascii. split_and!.
  - intros x Hx. by apply number_key_ascii.
  - apply number_key_token.
  - intros x. by apply number_key_fails.
  - apply key_le_spec.
  - intros numbers. split_and!.
    + apply sort_numbers_perm.
    + apply sort_numbers_by_key.
    + intros Hex. rewrite sort_numbers_fallback by done. split; [done|].
      apply sorted_Sorted, str_lt_asym.
  - unfold sort_numbers. cbn [mapM].
    rewrite !(number_key_ascii char_class) by
      (try done; apply (bool_decide_unpack _); by vm_compute).
    by vm_compute.
  - destruct (save_results_eq char_class s)
      as (s' & Hs & _ & _ & _ & _ & _ & _ & Hd).
    exists s', (sorted str_lt (elements (street_names s))).
    rewrite Hd. simpl. split_and!; try done.
    + apply sorted_names_spec.
    + apply sorted_names_spec.
Qed.

(** ** The saved order is the only one *)

Lemma str_lt_total a b : str_lt a b = false → str_lt b a = false → a = b.
Proof.
  revert b. induction a as [|x a IH]; intros [|y b]; simpl; try done.
  destruct (N.ltb_spec x y), (N.ltb_spec y x); try done; try lia.
  intros H1 H2. f_equal; [lia|by apply IH].
Qed.

Global Instance str_le_trans : Transitive str_le.
Proof.
  unfold str_le. intros a. induction a as [|x a IH]; intros b c.
  - destruct c; [done|]. destruct b; simpl; [done|].
    by repeat case_match.
  - destruct b as [|y b], c as [|z c]; simpl; try done.
    destruct (N.ltb_spec y x), (N.ltb_spec x y), (N.ltb_spec z y),
      (N.ltb_spec y z), (N.ltb_spec z x), (N.ltb_spec x z);
      try done; try lia.
    apply IH.
Qed.

Global Instance key_le_trans : Transitive key_le.
Proof.
  intros [n1 x1] [n2 x2] [n3 x3]. rewrite !key_le_spec.
  intros [?|[-> H1]] [?|[-> H2]]; try (left; lia).
  right. split; [done|]. by etrans.
Qed.

Lemma key_le_antisym k1 k2 : key_le k1 k2 → key_le k2 k1 → k1 = k2.
Proof.
  destruct k1 as [n1 x1], k2 as [n2 x2]. rewrite !key_le_spec.
  intros [?|[E H1]] [?|[E' H2]]; try lia.
  subst. f_equal. by apply str_lt_total.
Qed.

Lemma sorted_canonical (l1 l2 : list str) :
  l1 ≡ₚ l2 → sorted str_lt l1 = sorted str_lt l2.
Proof.
  intros Hp. apply (Sorted_unique_strong str_le).
  - intros x y _ _ H1 H2. by apply str_lt_total.
  - apply sorted_Sorted, str_lt_asym.
  - apply sorted_Sorted, str_lt_asym.
  - by rewrite !sorted_perm.
Qed.

Lemma zip_number_keys char_class (keys : list (Z * str)) (l : list str) :
  Forall2 (λ x k, number_key char_class x = Some k) l keys →
  zip keys l = (λ x, (default (0%Z, []) (number_key char_class x), x)) <$> l.
Proof.
  induction 1 as [|x k l keys Hx _ IH]; simpl; [done|].
  by rewrite IH, Hx.
Qed.

Lemma sort_numbers_canonical char_class (l1 l2 : list str) :
  l1 ≡ₚ l2 → sort_numbers char_class l1 = sort_numbers char_class l2.
Proof.
  intros Hp. unfold sort_numbers.
  destruct (mapM (number_key char_class) l1) as [keys1|] eqn:E1.
  - assert (Forall (is_Some ∘ number_key char_class) l1) as F1
      by (apply mapM_is_Some; by eexists).
    assert (Forall (is_Some ∘ number_key char_class) l2) as F2
      by by rewrite <- Hp.
    destruct (mapM_is_Some_2 _ _ F2) as [keys2 E2]. rewrite E2.
    apply mapM_Some_1 in E1, E2. unfold sorted_with_keys.
    rewrite (zip_number_keys _ _ _ E1), (zip_number_keys _ _ _ E2).
    set (g := λ x, (default (0%Z, []) (number_key char_class x), x)).
    set (ltk := λ a b : (Z * str) * str, key_lt a.1 b.1).
    f_equal.
    assert (Transitive (λ a b : (Z * str) * str, key_le a.1 b.1))
      by (intros a b c; apply key_le_trans).
    apply (Sorted_unique_strong (λ a b : (Z * str) * str, key_le a.1 b.1)).
    + intros [k x] [k' x'] Hx Hx' H1 H2. simpl in H1, H2.
      pose proof (key_le_antisym _ _ H1 H2) as <-. f_equal.
      rewrite sorted_perm in Hx, Hx'.
      apply list_elem_of_fmap in Hx as (y & Hg & Hy).
      apply list_elem_of_fmap in Hx' as (y' & Hg' & Hy').
      unfold g in Hg, Hg'. injection Hg as Hk ->. injection Hg' as Hk' ->.
      rewrite Forall_forall in F1, F2.
      destruct (F1 y Hy) as [ky Ey], (F2 y' Hy') as [ky' Ey'].
      simpl in Ey, Ey'. rewrite Ey in Hk. rewrite Ey' in Hk'.
      simpl in Hk, Hk'. subst k. subst ky'.
      by rewrite <- (number_key_token _ _ _ Ey), <- (number_key_token _ _ _ Ey').
    + apply (sorted_Sorted ltk). intros a b. apply key_lt_asym.
    + apply (sorted_Sorted ltk). intros a b. apply key_lt_asym.
    + by rewrite !sorted_perm, Hp.
  - assert (mapM (number_key char_class) l2 = None) as ->.
    { apply eq_None_not_Some. rewrite mapM_is_Some, <- Hp, <- mapM_is_Some.
      rewrite E1. by intros [? ?]. }
    by apply sorted_canonical.
Qed.

(** X17. The files that [save_results] writes depend only on the sets of
    street names and completed prefixes and on which house numbers each
    street has, not on the order in which the numbers were found. *)
Theorem X17_saved_files_do_not_depend_on_the_order_of_discovery
    char_class s1 s2 :
  street_names s1 = street_names s2 →
  completed_queries s1 = completed_queries s2 →
  (∀ street,
     option_Forall2 (≡ₚ) (street_numbers s1 !! street)
       (street_numbers s2 !! street)) →
  disk (state_of (save_results char_class s1))
  = disk (state_of (save_results char_class s2)).
Proof.
  intros E1 E2 E3.
  destruct (save_results_eq char_class s1)
    as (s1' & -> & _ & _ & _ & _ & _ & _ & D1).
  destruct (save_results_eq char_class s2)
    as (s2' & -> & _ & _ & _ & _ & _ & _ & D2).
  cbn [state_of]. rewrite D1, D2, E1, E2. do 2 f_equal. apply map_eq. intros street.
  rewrite !lookup_fmap.
  destruct (E3 street) as [l1 l2 Hp|]; simpl; [|done].
  f_equal. by apply sort_numbers_canonical.
Qed.

(** * The model at concrete inputs *)

(** C1. [explore_prefix] has no guard.  A run of [main] while the
    connection is down finds no street, completes all 29 letters and saves
    both; the next run loads "A" as a completed prefix and no street name,
    so that [main] collects the streets again: exploring "A" sends the
    request for "A" and adds the street it returns. *)
Theorem C1_explore_prefix_queries_a_completed_prefix :
  let d := disk (state_of (main dead_server latin_lower latin_digits 1
                             (init no_files))) in
  let s := state_of (load_existing_data (init d)) in
  let s' := state_of (explore_prefix a_server latin_lower 1 (utf8 "A") s) in
  street_names_json d = Some []
  ∧ utf8 "A" ∈ completed_queries s
  ∧ requests s = []
  ∧ street_names s = ∅
  ∧ requests s' = [GetStreets (utf8 "A")]
  ∧ street_names s' = {[utf8 "Ahornweg"]}.
Proof. cbv zeta. split_and!; by vm_compute. Qed.

(** C3, counterexample.  After "10" was explored and completed for a
    street, an exploration of "1" that is answered with 12 numbers returns
    without a request for the child "1" + "0", although "0" is one of the
    ten digits. *)
Lemma C3_counterexample :
  let s := state_of (explore_house_numbers ten_server 1 (utf8 "Weg")
                       (utf8 "10") (init no_files)) in
  let o := explore_house_numbers ten_server 2 (utf8 "Weg") (utf8 "1") s in
  length (fetched (fetch_house_numbers ten_server (utf8 "Weg") (utf8 "1") s))
  = 12%nat
  ∧ returned o = true
  ∧ 48 ∈ utf8 "0123456789"
  ∧ utf8 "1" ++ [48] = utf8 "10"
  ∧ count (GetNumbers (utf8 "Weg") (Some (utf8 "10")))
      (drop (length (requests s)) (requests (state_of o))) = 0%nat.
Proof.
  cbv zeta. split_and!; [by vm_compute|by vm_compute| |by vm_compute..].
  apply (bool_decide_unpack _). by vm_compute.
Qed.

(** C5, counterexample.  "B" is none of the ten characters of the table,
    and yet a prefix that ends in "B" does not get the full alphabet. *)
Lemma C5_counterexample :
  ¬ (∀ lower, ascii_lower lower →
     ∀ prefix c,
       last prefix = Some c →
       [c] ∉ [utf8 "b"; utf8 "c"; utf8 "d"; utf8 "f"; utf8 "g"; utf8 "k";
              utf8 "p"; utf8 "t"; utf8 "x"; utf8 "q"] →
       get_next_characters lower prefix = german_chars).
Proof.
  intros H.
  specialize (H latin_lower latin_lower_ascii (utf8 "B") 66 eq_refl).
  assert (Hfull : get_next_characters latin_lower (utf8 "B") = german_chars).
  { apply H. apply (bool_decide_unpack _). by vm_compute. }
  by vm_compute in Hfull.
Qed.

(** ** The theorems at work *)

(** A new fetcher has both invariants. *)
Lemma init_completed_keys_known d : completed_keys_known (init d).
Proof. intros street p _ H. by apply not_elem_of_empty in H. Defined.

Lemma init_no_duplicates : no_duplicates (init no_files).
Proof.
  split.
  - intros street l H. simpl in H. by rewrite lookup_empty in H.
  - intros m street l H. simpl in H. discriminate H.
Defined.

(** C2 on an empty answer to "A" and to "1", and on twelve answers to
    "Ab" and to "1". *)
Lemma C2_witness :
  let s := init no_files in
  (∃ s', explore_prefix empty_server latin_lower 1 (utf8 "A") s = Done () s'
         ∧ utf8 "A" ∈ completed_queries s'
         ∧ requests s' = requests s ++ [GetStreets (utf8 "A")])
  ∧ (utf8 "Ab" ∈ completed_queries
                   (state_of (explore_prefix ab_server latin_lower 2
                                (utf8 "Ab") s)) →
     utf8 "Ab" ∈ completed_queries s)
  ∧ (∃ s', explore_house_numbers empty_server 1 (utf8 "Weg") (utf8 "1") s
           = Done () s'
           ∧ query_key (utf8 "Weg") (utf8 "1") ∈ completed_number_queries s'
           ∧ requests s'
             = requests s ++ [number_params (utf8 "Weg") (utf8 "1")])
  ∧ (query_key (utf8 "Weg") (utf8 "1")
       ∈ completed_number_queries
           (state_of (explore_house_numbers ten_server 2 (utf8 "Weg")
                        (utf8 "1") s)) →
     query_key (utf8 "Weg") (utf8 "1") ∈ completed_number_queries s).
Proof.
  cbv zeta.
  destruct (C2_completed_iff_below_threshold empty_server latin_lower 0
              (utf8 "A") (utf8 "Weg") (utf8 "1") (init no_files))
    as (H1 & _ & H3 & _).
  destruct (C2_completed_iff_below_threshold ab_server latin_lower 1
              (utf8 "Ab") (utf8 "Weg") (utf8 "1") (init no_files))
    as (_ & H2 & _ & _).
  destruct (C2_completed_iff_below_threshold ten_server latin_lower 1
              (utf8 "Ab") (utf8 "Weg") (utf8 "1") (init no_files))
    as (_ & _ & _ & H4).
  split_and!.
  - apply H1. vm_compute. lia.
  - apply H2. vm_compute. reflexivity.
  - apply H3; [vm_compute; lia|]. apply not_elem_of_empty.
  - apply H4. vm_compute. reflexivity.
Defined.

(** C3 on twelve streets for "Ab" and twelve numbers for "1" in a new
    fetcher. *)
Lemma C3_witness :
  let s := init no_files in
  (∃ new,
     requests (state_of (explore_prefix ab_server latin_lower 2 (utf8 "Ab") s))
     = requests s ++ GetStreets (utf8 "Ab") :: new
     ∧ (∀ c, c ∈ get_next_characters latin_lower (utf8 "Ab") →
             count (GetStreets (utf8 "Ab" ++ [c])) new = 1%nat)
     ∧ (utf8 "Ab" ∈ completed_queries
                      (state_of (explore_prefix ab_server latin_lower 2
                                   (utf8 "Ab") s)) →
        utf8 "Ab" ∈ completed_queries s))
  ∧ (∃ new,
       requests (state_of (explore_house_numbers ten_server 2 (utf8 "Weg")
                             (utf8 "1") s))
       = requests s ++ number_params (utf8 "Weg") (utf8 "1") :: new
       ∧ (∀ d, d ∈ utf8 "0123456789" →
               count (number_params (utf8 "Weg") (utf8 "1" ++ [d])) new
               = if decide (query_key (utf8 "Weg") (utf8 "1" ++ [d])
                              ∈ completed_number_queries s)
                 then 0%nat else 1%nat)
       ∧ query_key (utf8 "Weg") (utf8 "1")
           ∉ completed_number_queries
               (state_of (explore_house_numbers ten_server 2 (utf8 "Weg")
                            (utf8 "1") s))).
Proof.
  cbv zeta.
  destruct (C3_expansion_queries_each_open_child ab_server latin_lower 1
              (utf8 "Ab") (utf8 "Weg") (utf8 "1") (init no_files))
    as (H1 & _).
  destruct (C3_expansion_queries_each_open_child ten_server latin_lower 1
              (utf8 "Ab") (utf8 "Weg") (utf8 "1") (init no_files))
    as (_ & H2).
  split.
  - apply H1; vm_compute; reflexivity.
  - apply H2; [vm_compute; reflexivity|apply not_elem_of_empty
              |vm_compute; reflexivity].
Defined.

(** C4 with the connection down. *)
Lemma C4_witness :
  let s := init no_files in
  raises (dead_server (requests s) (GetStreets (utf8 "A"))) = true
  ∧ (∃ s2, explore_prefix dead_server latin_lower 1 (utf8 "A") s = Done () s2
           ∧ requests s2 = requests s ++ [GetStreets (utf8 "A")]
           ∧ street_names s2 = street_names s
           ∧ utf8 "A" ∈ completed_queries s2)
  ∧ (∃ s2, explore_house_numbers dead_server 1 (utf8 "Weg") (utf8 "1") s
           = Done () s2
           ∧ requests s2
             = requests s ++ [number_params (utf8 "Weg") (utf8 "1")]
           ∧ street_numbers s2 !! utf8 "Weg"
             = Some (default [] (street_numbers s !! utf8 "Weg"))
           ∧ query_key (utf8 "Weg") (utf8 "1")
               ∈ completed_number_queries s2).
Proof.
  cbv zeta.
  destruct (C4_failed_query_is_an_empty_answer dead_server latin_lower 0
              (utf8 "A") (utf8 "Weg") (utf8 "1") (init no_files))
    as (H1 & H2).
  split_and!.
  - reflexivity.
  - apply H1. reflexivity.
  - apply H2; [reflexivity|apply not_elem_of_empty].
Defined.

(** C5 on the empty prefix and on prefixes ending in "a", "B", "x", "Q". *)
Lemma C5_witness :
  get_next_characters latin_lower [] = german_chars
  ∧ get_next_characters latin_lower (utf8 "Aa") = german_chars
  ∧ get_next_characters latin_lower (utf8 "B")
    = filter (λ x, x ∉ utf8 "bcdfgjkpqvwxz") german_chars
  ∧ get_next_characters latin_lower (utf8 "Max") = []
  ∧ get_next_characters latin_lower (utf8 "Q") = utf8 "u".
Proof.
  destruct (C5_next_characters_by_lowered_last_character latin_lower [])
    as (_ & _ & _ & H0 & _).
  destruct (C5_next_characters_by_lowered_last_character latin_lower (utf8 "Aa"))
    as (_ & _ & _ & _ & Ha & _).
  destruct (C5_next_characters_by_lowered_last_character latin_lower (utf8 "B"))
    as (_ & _ & _ & _ & _ & Hb & _).
  destruct (C5_next_characters_by_lowered_last_character latin_lower (utf8 "Max"))
    as (_ & _ & _ & _ & _ & _ & Hx & _).
  destruct (C5_next_characters_by_lowered_last_character latin_lower (utf8 "Q"))
    as (_ & _ & _ & _ & _ & _ & _ & Hq).
  split_and!.
  - apply H0. reflexivity.
  - apply (Ha 97); reflexivity.
  - apply (Hb 66); reflexivity.
  - apply (Hx 120); reflexivity.
  - apply (Hq 81); reflexivity.
Defined.

(** C6 with the digits of Latin-1: the example, a key, and the fallback
    for a list with a superscript two. *)
Lemma C6_witness :
  sort_numbers latin_digits [utf8 "10"; utf8 "2"; utf8 "1a"; utf8 "2b"]
  = [utf8 "1a"; utf8 "2"; utf8 "2b"; utf8 "10"]
  ∧ number_key latin_digits (utf8 "12a") = Some (12%Z, utf8 "12a")
  ∧ sort_numbers latin_digits [utf8 "10"; utf8 "2²"; utf8 "1a"]
    = sorted str_lt [utf8 "10"; utf8 "2²"; utf8 "1a"].
Proof.
  destruct (C6_saved_lists_are_sorted latin_digits (init no_files)
              latin_digits_ascii)
    as (Hkey & _ & Hfail & _ & Hsort & Hexample & _).
  split_and!.
  - exact Hexample.
  - apply (Hkey (utf8 "12a")). repeat constructor.
  - apply (Hsort [utf8 "10"; utf8 "2²"; utf8 "1a"]).
    apply Exists_cons_tl, Exists_cons_hd, Hfail.
    apply Exists_cons_tl, Exists_cons_hd. reflexivity.
Defined.

(** C7 along two explorations and a save. *)
Lemma C7_witness :
  let s := init no_files in
  let calls := [(2%nat, ExplorePrefix (utf8 "Ab"));
                (2%nat, ExploreHouseNumbers (utf8 "Weg") (utf8 "1"));
                (1%nat, SaveResults)] in
  street_names s ⊆ street_names (run_all ab_server latin_lower latin_digits calls s)
  ∧ (size (street_names s)
     ≤ size (street_names (run_all ab_server latin_lower latin_digits calls s)))%nat
  ∧ ∀ street l,
      street_numbers s !! street = Some l →
      ∃ more,
        street_numbers (run_all ab_server latin_lower latin_digits calls s)
          !! street = Some (l ++ more)
        ∧ (length l ≤ length (l ++ more))%nat.
Proof.
  cbv zeta.
  apply (C7_discovered_only_grows ab_server latin_lower latin_digits).
  repeat constructor.
Defined.

(** C8 for a new fetcher and a server that finds nothing. *)
Lemma C8_witness :
  let s := init no_files in
  (∃ new,
     requests (state_of (collect_house_numbers_for_street empty_server 1
                           (utf8 "Weg") s))
     = requests s ++ new
     ∧ ∀ d, d ∈ utf8 "123456789" →
            count (GetNumbers (utf8 "Weg") (Some [d])) new = 1%nat)
  ∧ ∀ letter,
      letter ∈ utf8 "ABCDEFGHIJKLMNOPQRSTUVWXYZÄÖÜ" →
      GetStreets [letter]
        ∈ requests (state_of (main empty_server latin_lower latin_digits 1 s)).
Proof.
  cbv zeta.
  destruct (C8_seeds empty_server latin_lower latin_digits 1 (utf8 "Weg")
              (init no_files)) as (_ & H2 & _ & H4).
  split.
  - apply H2; [apply init_completed_keys_known|reflexivity
              |vm_compute; reflexivity].
  - apply H4; vm_compute; reflexivity.
Defined.

(** C9 after a failed query for "1" in a new fetcher. *)
Lemma C9_witness :
  let s' := state_of (explore_house_numbers dead_server 1 (utf8 "Weg")
                        (utf8 "1") (init no_files)) in
  is_Some (street_numbers s' !! utf8 "Weg")
  ∧ ∀ calls fuel',
      Forall (λ c, reloads c.2 = false) calls →
      ∃ s'',
        collect_house_numbers_for_street dead_server fuel' (utf8 "Weg")
          (run_all dead_server latin_lower latin_digits calls s')
        = Done () s''
        ∧ requests s''
          = requests (run_all dead_server latin_lower latin_digits calls s').
Proof.
  apply (C9_explored_street_is_skipped dead_server latin_lower latin_digits 0
           (utf8 "Weg") (utf8 "1") (init no_files)).
  - apply init_completed_keys_known.
  - repeat constructor.
Defined.

(** C10 for an exploration in a new fetcher. *)
Lemma C10_witness :
  no_duplicates
    (state_of (run ten_server latin_lower latin_digits 2
                 (ExploreHouseNumbers (utf8 "Weg") (utf8 "1"))
                 (init no_files))).
Proof.
  apply (C10_house_numbers_stay_distinct ten_server latin_lower latin_digits).
  apply init_no_duplicates.
Defined.

(** ** The further properties at work *)


Lemma X3_witness :
  ∃ s', explore_prefix full_server latin_lower 1 (utf8 "Ax") (init no_files)
        = Done () s'
        ∧ requests s' = [GetStreets (utf8 "Ax")]
        ∧ completed_queries s' = ∅.
Proof.
  destruct (X3_no_exploration_below_x full_server latin_lower 0 (utf8 "Ax")
              120 (init no_files) eq_refl eq_refl) as (s' & E & Hr & Hc).
  exists s'. split; [exact E|]. split; [exact Hr|].
  apply Hc. reflexivity.
Defined.

Lemma X4_witness :
  utf8 "Abweg0"
    ∈ street_names (state_of (explore_prefix ab_server latin_lower 1
                                (utf8 "Ab") (init no_files)))
  ∧ ∃ l, street_numbers
           (state_of (explore_house_numbers ten_server 1 (utf8 "Weg")
                        (utf8 "10") (init no_files)))
           !! utf8 "Weg" = Some l
         ∧ utf8 "10" ∈ l.
Proof.
  split.
  - apply (X4_explorers_record_every_answer ab_server latin_lower 0
             (utf8 "Ab") (utf8 "Weg") (utf8 "10") (init no_files)).
    apply (bool_decide_unpack _). vm_compute. reflexivity.
  - apply (X4_explorers_record_every_answer ten_server latin_lower 0
             (utf8 "Ab") (utf8 "Weg") (utf8 "10") (init no_files)).
    + apply not_elem_of_empty.
    + apply (bool_decide_unpack _). vm_compute. reflexivity.
Defined.



Lemma X13_witness :
  let s' := state_of (main a_server latin_lower latin_digits 1
                        (init no_files)) in
  street_names s' = {[utf8 "Ahornweg"]}
  ∧ (∀ street, street ∈ street_names s' →
               is_Some (street_numbers s' !! street))
  ∧ disk s' = snapshot latin_digits s'.
Proof.
  cbv zeta. split; [vm_compute; reflexivity|].
  apply (X13_a_finished_run_has_processed_and_saved_everything a_server
           latin_lower latin_digits 1 (init no_files)).
  - reflexivity.
  - vm_compute. reflexivity.
Defined.

Lemma X15_witness :
  let s1 := state_of (main a_server latin_lower latin_digits 1
                        (init no_files)) in
  ∃ s2, main a_server latin_lower latin_digits 0 (init (disk s1)) = Done () s2
        ∧ requests s2 = []
        ∧ street_names s2 = street_names s1
        ∧ completed_queries s2 = completed_queries s1
        ∧ disk s2 = disk s1.
Proof.
  cbv zeta.
  apply (X15_a_second_run_is_idle a_server latin_lower latin_digits 1 0
           (init no_files)).
  - reflexivity.
  - vm_compute. reflexivity.
  - apply (bool_decide_unpack _). vm_compute. reflexivity.
Defined.

Lemma X16_witness :
  let s := init {| street_names_json := Some [utf8 "Ahornweg"];
                   completed_queries_json := None;
                   street_numbers_json := None |} in
  let s' := state_of (main a_server latin_lower latin_digits 1 s) in
  sends (λ r, ∃ street d q,
           street ∈ [utf8 "Ahornweg"] ∧ d ∈ utf8 "123456789"
           ∧ r = GetNumbers street (Some (d :: q))) s s'
  ∧ street_names s' = list_to_set [utf8 "Ahornweg"]
  ∧ completed_queries s' = ∅.
Proof.
  cbv zeta.
  apply (X16_loaded_street_names_stop_the_street_collection a_server
           latin_lower latin_digits 1 [utf8 "Ahornweg"]).
  - reflexivity.
  - discriminate.
Defined.

Lemma X17_witness :
  let s1 := with_street_numbers {[utf8 "Weg" := [utf8 "2"; utf8 "1"]]}
              (init no_files) in
  let s2 := with_street_numbers {[utf8 "Weg" := [utf8 "1"; utf8 "2"]]}
              (init no_files) in
  disk (state_of (save_results latin_digits s1))
  = disk (state_of (save_results latin_digits s2)).
Proof.
  cbv zeta.
  apply (X17_saved_files_do_not_depend_on_the_order_of_discovery
           latin_digits).
  - reflexivity.
  - reflexivity.
  - intros street. cbn [street_numbers with_street_numbers].
    destruct (decide (street = utf8 "Weg")) as [->|Hne].
    + rewrite !lookup_singleton_eq. constructor. apply Permutation_swap.
    + rewrite !lookup_singleton_ne by done. constructor.
Defined.

